(** * Bouncy ball engine: a shallow embedding of [bouncy_ball_engine.py]

    The simulation state of the Python program ([Arena], [TrailManager],
    [Ball]) is embedded as records, and every method that mutates [self] as a
    function from the old object to the new one.

    Numbers.  Python's [float] is embedded twice.  The engine over [R] has
    every arithmetic operation exact, [math.hypot] as the Euclidean norm and
    the decimal literals of the configuration as the rationals they denote;
    what is proved of it tells what the code computes up to the rounding of
    binary64, and holds of the code itself wherever no comparison hangs on
    that rounding.  Where one does, the code is evaluated in [F64], the same
    engine over the kernel's binary64 floats, and the rounding enters the
    statements over [R] through [rounds].  Python's [int] ([color_index],
    RGB components) is [Z], and [%] on a positive modulus is [Z.modulo].

    Exceptions.  The two operations of the engine that can raise, the float
    division and the indexing of a list, return in the error monad [res].

    pygame.  The library is outside the model: what the engine asks of it is
    recorded as a list of [draw_cmd], and what it delivers to the loop, the
    ticks of the clock and the events, is an input of [App.run]. *)

From Stdlib Require Import Floats.
From Stdlib Require Import QArith.
From Stdlib Require Import Reals Lra Lia ZArith List Psatz Sorted.
Import ListNotations.

Set Warnings "-inexact-float".

Open Scope R_scope.

(** ** Exceptions *)

Inductive exn : Type :=
| ZeroDivisionError
| IndexError.

Inductive res (A : Type) : Type :=
| Ok (a : A)
| Raise (e : exn).

Arguments Ok {A} a.
Arguments Raise {A} e.

Definition bind {A B : Type} (c : res A) (k : A -> res B) : res B :=
  match c with
  | Ok a => k a
  | Raise e => Raise e
  end.

Notation "x <- c ;; k" := (bind c (fun x => k))
  (at level 61, c at next level, right associativity).
Notation "' pat <- c ;; k" := (bind c (fun x => match x with pat => k end))
  (at level 61, pat pattern, c at next level, right associativity).

(** ** Python primitives used by the engine *)

(** [a / b] on floats: raises on a zero divisor. *)
Definition fdiv (a b : R) : res R :=
  if Req_dec_T b 0 then Raise ZeroDivisionError else Ok (a / b).

(** [math.hypot(dx, dy)]. *)
Definition hypot (dx dy : R) : R := sqrt (dx * dx + dy * dy).

(** [l[i]] on a list: a negative index counts from the end, an index out of
    range raises. *)
Definition getitem {A : Type} (l : list A) (i : Z) : res A :=
  let n := Z.of_nat (length l) in
  let j := if (i <? 0)%Z then (i + n)%Z else i in
  if orb (j <? 0)%Z (n <=? j)%Z then Raise IndexError
  else match nth_error l (Z.to_nat j) with
       | Some a => Ok a
       | None => Raise IndexError
       end.

(** [collections.deque(maxlen=...).append(v)]: the item is appended on the
    right and, when the deque then holds more than [maxlen] items, one item is
    discarded on the left. *)
Definition deque_append {A : Type} (maxlen : nat) (d : list A) (v : A) : list A :=
  let d' := d ++ [v] in
  if (maxlen <? length d')%nat then tl d' else d'.

(** [int(r)] on a float: the integer part, rounded towards zero. *)
Definition py_int (r : R) : Z :=
  if Rle_dec 0 r then Int_part r else (- Int_part (- r))%Z.

(** ** Config *)

Definition rgb : Type := (Z * Z * Z)%type.

Definition BALL_BASE_RADIUS : R := 15.
Definition BALL_MAX_RATIO : R := 8 / 10.
Definition GROWTH_PER_SEC : R := 12.
Definition RESTIUTION : R := 95 / 100.
Definition TANGENTIAL_FRICTION : R := 99 / 100.
Definition LINEAR_FRICTION : R := 999 / 1000.
Definition GRAVITY : R := 200.

Definition TRAIL_LEN : nat := 140.
Definition IMPACT_LIFETIME : R := 6 / 10.

Definition COLORS : list rgb :=
  [ (255, 0, 0); (0, 255, 0); (0, 0, 255);
    (255, 255, 0); (255, 0, 255); (0, 255, 255) ]%Z.

Definition WIDTH : Z := 800.
Definition HEIGHT : Z := 600.
Definition FPS : Z := 120.
Definition MARGIN : Z := 50.
Definition ARENA_COLOR : rgb := (255, 255, 255)%Z.
Definition BG_COLOR : rgb := (0, 0, 0)%Z.
Definition IMPACT_WIDTH : Z := 2.
Definition TRAIL_WIDTH : Z := 2.

(** ** Drawing *)

(** What the engine asks of pygame, in the order it asks it:
    [surface.fill(color)]; [pygame.draw.circle(surface, color, center,
    radius, width)], where width 0 fills the circle; a line of colour [color]
    and opacity [alpha] drawn on a transparent surface that is then blitted
    onto the window; [pygame.display.flip()]. *)
Inductive draw_cmd : Type :=
| Fill (color : rgb)
| DrawCircle (color : rgb) (center : Z * Z) (radius : Z) (width : Z)
| BlendLine (color : rgb) (alpha : Z) (start_pos end_pos : R * R) (width : Z)
| Flip.

(** ** Arena *)

Module Arena.

Record t : Type := mk { cx : R; cy : R; radius : R }.

Definition draw (a : t) : list draw_cmd :=
  [DrawCircle ARENA_COLOR (py_int (cx a), py_int (cy a)) (py_int (radius a)) 2].

End Arena.

(** ** TrailManager *)

Module TrailManager.

Definition sample : Type := (R * R)%type.

(** An impact is the tuple [(pos, t, col)]: where it happened, the life
    it has left, and the colour the ball had. *)
Definition impact : Type := (sample * R * rgb)%type.

Record t : Type := mk { motion_trail : list sample; impacts : list impact }.

(** [__init__] *)
Definition init : t := mk [] [].

Definition push_position (x y : R) (tm : t) : t :=
  mk (deque_append TRAIL_LEN (motion_trail tm) (x, y)) (impacts tm).

Definition add_impact (pos : sample) (color : rgb) (tm : t) : t :=
  mk (motion_trail tm) (impacts tm ++ [(pos, IMPACT_LIFETIME, color)]).

(** The [for] loop of [update]: [alive] is the list built so far. *)
Fixpoint update_loop (dt : R) (todo alive : list impact) : list impact :=
  match todo with
  | [] => alive
  | (pos, t, col) :: rest =>
      let t' := t - dt in
      if Rgt_dec t' 0
      then update_loop dt rest (alive ++ [(pos, t', col)])
      else update_loop dt rest alive
  end.

Definition update (dt : R) (tm : t) : t :=
  mk (motion_trail tm) (update_loop dt (impacts tm) []).

(** The alpha of an impact line in [draw]. *)
Definition impact_alpha (t : R) : res Z :=
  q <- fdiv t IMPACT_LIFETIME ;;
  Ok (Z.max 0 (Z.min 255 (py_int (255 * q)))).

(** The first [for] loop of [draw]. *)
Fixpoint draw_impacts (ball_pos : sample) (todo : list impact)
  : res (list draw_cmd) :=
  match todo with
  | [] => Ok []
  | (pos, t, col) :: rest =>
      alpha <- impact_alpha t ;;
      cmds <- draw_impacts ball_pos rest ;;
      Ok (BlendLine col alpha pos ball_pos IMPACT_WIDTH :: cmds)
  end.

(** The second [for] loop of [draw], over the indices [todo] of [pts]. *)
Fixpoint draw_trail (color : rgb) (pts : list sample) (todo : list nat)
  : res (list draw_cmd) :=
  match todo with
  | [] => Ok []
  | i :: rest =>
      fade <- fdiv (INR i) (INR (length pts)) ;;
      let alpha := py_int (180 * fade) in
      p <- getitem pts (Z.of_nat i - 1) ;;
      q <- getitem pts (Z.of_nat i) ;;
      cmds <- draw_trail color pts rest ;;
      Ok (BlendLine color alpha p q TRAIL_WIDTH :: cmds)
  end.

Definition draw (ball_pos : sample) (color : rgb) (tm : t)
  : res (list draw_cmd) :=
  impact_cmds <- draw_impacts ball_pos (impacts tm) ;;
  trail_cmds <-
    (if (1 <? length (motion_trail tm))%nat
     then let pts := motion_trail tm in
          draw_trail color pts (seq 1 (length pts - 1))
     else Ok []) ;;
  Ok (impact_cmds ++ trail_cmds).

End TrailManager.

(** ** Ball *)

Module Ball.

Record t : Type := mk {
  x : R;
  y : R;
  vx : R;
  vy : R;
  radius : R;
  color_index : Z;
  arena : Arena.t;
  trails : TrailManager.t
}.

Definition set_pos (x' y' : R) (b : t) : t :=
  mk x' y' (vx b) (vy b) (radius b) (color_index b) (arena b) (trails b).

Definition set_vel (vx' vy' : R) (b : t) : t :=
  mk (x b) (y b) vx' vy' (radius b) (color_index b) (arena b) (trails b).

Definition set_radius (r : R) (b : t) : t :=
  mk (x b) (y b) (vx b) (vy b) r (color_index b) (arena b) (trails b).

Definition set_color_index (i : Z) (b : t) : t :=
  mk (x b) (y b) (vx b) (vy b) (radius b) i (arena b) (trails b).

Definition set_trails (tm : TrailManager.t) (b : t) : t :=
  mk (x b) (y b) (vx b) (vy b) (radius b) (color_index b) (arena b) tm.

(** The [color] property. *)
Definition color (b : t) : res rgb := getitem COLORS (color_index b).

Definition cycle_color (b : t) : t :=
  set_color_index ((color_index b + 1) mod Z.of_nat (length COLORS))%Z b.

Definition _reflect_on_circle (normal_x normal_y : R) (b : t) : t :=
  let vn := vx b * normal_x + vy b * normal_y in
  let vt_x := vx b - vn * normal_x in
  let vt_y := vy b - vn * normal_y in
  let vn_reflected := - vn * RESTIUTION in
  let vt_x := vt_x * TANGENTIAL_FRICTION in
  let vt_y := vt_y * TANGENTIAL_FRICTION in
  set_vel (vn_reflected * normal_x + vt_x) (vn_reflected * normal_y + vt_y) b.

(** *** The phases of [update], in the order of its statements *)

(** [self.vy += GRAVITY * dt] *)
Definition apply_gravity (dt : R) (b : t) : t :=
  set_vel (vx b) (vy b + GRAVITY * dt) b.

(** [self.vx *= LINEAR_FRICTION; self.vy *= LINEAR_FRICTION] *)
Definition apply_friction (b : t) : t :=
  set_vel (vx b * LINEAR_FRICTION) (vy b * LINEAR_FRICTION) b.

(** [self.x += self.vx * dt; self.y += self.vy * dt] *)
Definition integrate (dt : R) (b : t) : t :=
  set_pos (x b + vx b * dt) (y b + vy b * dt) b.

(** The growth of the radius towards [target_max]. *)
Definition grow (dt : R) (b : t) : t :=
  let target_max := Arena.radius (arena b) * BALL_MAX_RATIO in
  if Rlt_dec (radius b) target_max
  then set_radius (Rmin target_max (radius b + GROWTH_PER_SEC * dt)) b
  else b.

(** [dx], [dy], [dist] and [max_dist] as [update] computes them. *)
Definition dx (b : t) : R := x b - Arena.cx (arena b).
Definition dy (b : t) : R := y b - Arena.cy (arena b).
Definition dist (b : t) : R := hypot (dx b) (dy b).
Definition max_dist (b : t) : R := Arena.radius (arena b) - radius b.

(** The normal chosen in the collision branch. *)
Definition normal (dx dy dist : R) : res (R * R) :=
  if Req_dec_T dist 0 then Ok (1, 0)
  else
    nx <- fdiv dx dist ;;
    ny <- fdiv dy dist ;;
    Ok (nx, ny).

(** The body of [if dist > max_dist:]. *)
Definition bounce (b : t) : res t :=
  '(nx, ny) <- normal (dx b) (dy b) (dist b) ;;
  let b1 := set_pos (Arena.cx (arena b) + nx * max_dist b)
                    (Arena.cy (arena b) + ny * max_dist b) b in
  let b2 := _reflect_on_circle nx ny b1 in
  col <- color b2 ;;
  let b3 := set_trails (TrailManager.add_impact (x b2, y b2) col (trails b2)) b2 in
  Ok (cycle_color b3).

Definition collide (b : t) : res t :=
  if Rgt_dec (dist b) (max_dist b) then bounce b else Ok b.

(** The last two statements of [update]. *)
Definition record_trail (dt : R) (b : t) : t :=
  let b1 := set_trails (TrailManager.push_position (x b) (y b) (trails b)) b in
  set_trails (TrailManager.update dt (trails b1)) b1.

(** The state on which [update] tests for a collision. *)
Definition moved (dt : R) (b : t) : t :=
  grow dt (integrate dt (apply_friction (apply_gravity dt b))).

Definition update (dt : R) (b : t) : res t :=
  b' <- collide (moved dt b) ;;
  Ok (record_trail dt b').

(** Whether [update dt] takes the collision branch from [b]. *)
Definition collides (dt : R) (b : t) : Prop :=
  dist (moved dt b) > max_dist (moved dt b).

(** The containment invariant of the ball. *)
Definition contained (b : t) : Prop := dist b <= max_dist b.

(** The cap on the radius, [target_max] in [update]. *)
Definition target_max (b : t) : R := Arena.radius (arena b) * BALL_MAX_RATIO.

(** [__init__], with the angle drawn by [random.uniform] as a parameter. *)
Definition init (a : Arena.t) (ang : R) : t :=
  mk (Arena.cx a) (Arena.cy a - Arena.radius a * (5 / 10))
     (250 * cos ang) (- 150)
     BALL_BASE_RADIUS 0 a TrailManager.init.

(** What the engine takes for granted about a ball: the radius of its arena
    is not negative, and its colour index is a position of the palette.
    [init] establishes both and [update] keeps them. *)
Definition well_formed (b : t) : Prop :=
  0 <= Arena.radius (arena b)
  /\ (0 <= color_index b < Z.of_nat (length COLORS))%Z.

Definition draw (b : t) : res (list draw_cmd) :=
  col <- color b ;;
  trail_cmds <- TrailManager.draw (x b, y b) col (trails b) ;;
  col' <- color b ;;
  Ok (trail_cmds
      ++ [DrawCircle col' (py_int (x b), py_int (y b)) (py_int (radius b)) 0]).

End Ball.

(** ** Vectors *)

(** The component of [(vx, vy)] along [(nx, ny)], and what is left of the
    vector once that component is taken out. *)
Definition normal_part (vx vy nx ny : R) : R := vx * nx + vy * ny.

Definition tangent_part (vx vy nx ny : R) : R * R :=
  (vx - normal_part vx vy nx ny * nx, vy - normal_part vx vy nx ny * ny).

(** ** App: the arena of the window, and a run of frames *)

(** The arena that [App.__init__] builds from [WIDTH], [HEIGHT] and [MARGIN]:
    centre [(800 // 2, 600 // 2)], radius [min(800, 600) // 2 - 50]. *)
Definition app_arena : Arena.t := Arena.mk 400 300 250.

(** A ball at rest at the centre of that arena. *)
Definition center_ball : Ball.t :=
  Ball.mk 400 300 0 0 BALL_BASE_RADIUS 0 app_arena TrailManager.init.

(** A ball larger than its arena, that a frame of one second leaves exactly
    on the centre, and a ball of the window's arena placed outside of it. *)
Definition oversized_ball : Ball.t :=
  Ball.mk 0 0 0 (- 200) 20 0 (Arena.mk 0 0 10) TrailManager.init.

Definition outside_ball : Ball.t :=
  Ball.mk 700 300 0 0 BALL_BASE_RADIUS 0 app_arena TrailManager.init.


(** [App._update] called once per frame, with the [dt] of each frame. *)
Fixpoint run (dts : list R) (b : Ball.t) : res Ball.t :=
  match dts with
  | [] => Ok b
  | dt :: rest => b' <- Ball.update dt b ;; run rest b'
  end.

(** ** App *)

Module App.

(** The events [_handle_events] tells apart: [pygame.QUIT], [pygame.KEYDOWN]
    with its [key], and every other event. *)
Inductive event : Type :=
| QUIT
| KEYDOWN (key : Z)
| OTHER.

(** [pygame.K_ESCAPE] *)
Definition K_ESCAPE : Z := 27.

(** The fields of [App] that the loop reads and writes; [window] and [clock]
    belong to pygame. *)
Record t : Type := mk { arena : Arena.t; ball : Ball.t; running : bool }.

(** [__init__], with the angle that [Ball.__init__] draws as a parameter. *)
Definition init (ang : R) : t :=
  let cx := (WIDTH / 2)%Z in
  let cy := (HEIGHT / 2)%Z in
  let radius := (Z.min WIDTH HEIGHT / 2 - MARGIN)%Z in
  let arena := Arena.mk (IZR cx) (IZR cy) (IZR radius) in
  mk arena (Ball.init arena ang) true.

Definition set_running (r : bool) (app : t) : t := mk (arena app) (ball app) r.

(** [_handle_events], on the events that [pygame.event.get()] returned. *)
Definition _handle_events (events : list event) (app : t) : t :=
  fold_left
    (fun app ev =>
       match ev with
       | QUIT => set_running false app
       | KEYDOWN key =>
           if (key =? K_ESCAPE)%Z then set_running false app else app
       | OTHER => app
       end)
    events app.

Definition _update (dt : R) (app : t) : res t :=
  b <- Ball.update dt (ball app) ;;
  Ok (mk (arena app) b (running app)).

Definition _draw (app : t) : res (list draw_cmd) :=
  ball_cmds <- Ball.draw (ball app) ;;
  Ok ([Fill BG_COLOR] ++ Arena.draw (arena app) ++ ball_cmds ++ [Flip]).

(** [run], on the frames that pygame delivers: for each iteration of the
    loop the milliseconds that [clock.tick(FPS)] returned and the events that
    [pygame.event.get()] returned.  The result is the application after the
    last iteration, with the drawing of every iteration, first to last; the
    loop has ended when [running] is false, and waits for a further frame
    otherwise. *)
Fixpoint run (frames : list (Z * list event)) (app : t)
  : res (t * list (list draw_cmd)) :=
  match frames with
  | [] => Ok (app, [])
  | (ms, events) :: rest =>
      if running app then
        let dt := IZR ms / 1000 in
        let app1 := _handle_events events app in
        app2 <- _update dt app1 ;;
        cmds <- _draw app2 ;;
        '(app', drawn) <- run rest app2 ;;
        Ok (app', cmds :: drawn)
      else Ok (app, [])
  end.

End App.

(** ** Sequences of calls on a [TrailManager] *)

(** [push_position] called on each point of [pts], first to last. *)
Definition push_all (pts : list TrailManager.sample) (tm : TrailManager.t)
  : TrailManager.t :=
  fold_left (fun tm p => TrailManager.push_position (fst p) (snd p) tm) pts tm.

(** The time elapsed over the frames [dts]. *)
Definition elapsed (dts : list R) : R := fold_right Rplus 0 dts.

(** The last [n] items of a list, in the order of the list. *)
Definition lastn {A : Type} (n : nat) (l : list A) : list A :=
  skipn (length l - n) l.

(** An impact with its life decremented by [dt], and the test [t > 0]. *)
Definition decay (dt : R) (i : TrailManager.impact) : TrailManager.impact :=
  let '(pos, t, col) := i in (pos, t - dt, col).

Definition live (i : TrailManager.impact) : bool :=
  let '(_, t, _) := i in if Rgt_dec t 0 then true else false.

(** The life that an impact has left. *)
Definition life (i : TrailManager.impact) : R := snd (fst i).

(** A drawing command whose opacity, when it has one, lies in [lo .. hi]. *)
Definition alpha_in (lo hi : Z) (c : draw_cmd) : Prop :=
  match c with
  | BlendLine _ alpha _ _ _ => (lo <= alpha <= hi)%Z
  | _ => True
  end.

(** The opacities of the lines of a drawing, in order. *)
Definition alphas (cmds : list draw_cmd) : list Z :=
  flat_map (fun c => match c with
                     | BlendLine _ alpha _ _ _ => [alpha]
                     | _ => []
                     end) cmds.

(** The line that [TrailManager.draw] draws for an impact, and the line it
    draws from point [k - 1] to point [k] of the trail [pts]. *)
Definition impact_line (ball_pos : TrailManager.sample)
    (i : TrailManager.impact) : draw_cmd :=
  let '(pos, t, col) := i in
  BlendLine col (Z.max 0 (Z.min 255 (py_int (255 * (t / IMPACT_LIFETIME)))))
            pos ball_pos IMPACT_WIDTH.

Definition trail_alpha (n k : nat) : Z := py_int (180 * (INR k / INR n)).

Definition trail_line (color : rgb) (pts : list TrailManager.sample)
    (k : nat) : draw_cmd :=
  BlendLine color (trail_alpha (length pts) k)
            (nth (k - 1) pts (0, 0)) (nth k pts (0, 0)) TRAIL_WIDTH.

(** The speed of a ball. *)
Definition speed (b : Ball.t) : R := hypot (Ball.vx b) (Ball.vy b).

(** Whether a batch of events asks the application to stop. *)
Definition quits (events : list App.event) : bool :=
  existsb (fun ev => match ev with
                     | App.QUIT => true
                     | App.KEYDOWN key => (key =? App.K_ESCAPE)%Z
                     | App.OTHER => false
                     end) events.

(** 141 distinct points: one more than the trail can hold. *)
Definition sample_points : list TrailManager.sample :=
  map (fun k => (INR k, 0)) (seq 0 (S TRAIL_LEN)).

(** The number of frames of a run that take the collision branch. *)
Fixpoint collisions (dts : list R) (b : Ball.t) : nat :=
  match dts with
  | [] => 0
  | dt :: rest =>
      match Ball.update dt b with
      | Ok b' =>
          ((if Rgt_dec (Ball.dist (Ball.moved dt b)) (Ball.max_dist (Ball.moved dt b))
            then 1 else 0) + collisions rest b')%nat
      | Raise _ => 0%nat
      end
  end.

(** ** The engine over binary64

    A second embedding of [TrailManager.update] and [Ball.update], on the
    kernel's primitive floats, which are the IEEE 754 binary64 numbers of
    Python's [float] with the same correctly rounded [+], [-], [*], [/] and
    square root, infinities and NaN.  It computes, and serves to evaluate the
    code at concrete inputs where rounding or overflow decides the outcome.

    [math.hypot] is the one operation that the kernel does not provide; it
    is exact when one argument is zero, which is where it is evaluated
    below, and is given here as the rounded square root of the rounded sum of
    squares elsewhere, from which CPython's result can differ in the last
    place. *)

Module F64.

Definition BALL_MAX_RATIO : float := 0.8.
Definition GROWTH_PER_SEC : float := 12.
Definition RESTIUTION : float := 0.95.
Definition TANGENTIAL_FRICTION : float := 0.99.
Definition LINEAR_FRICTION : float := 0.999.
Definition GRAVITY : float := 200.
Definition IMPACT_LIFETIME : float := 0.6.

(** [a / b]: raises on a zero divisor, of either sign. *)
Definition fdiv (a b : float) : res float :=
  if PrimFloat.eqb b 0 then Raise ZeroDivisionError else Ok (PrimFloat.div a b).

(** [min(a, b)] of two arguments: the first one unless the second is
    smaller. *)
Definition min (a b : float) : float := if PrimFloat.ltb b a then b else a.

Definition hypot (dx dy : float) : float :=
  if PrimFloat.eqb dy 0 then PrimFloat.abs dx
  else if PrimFloat.eqb dx 0 then PrimFloat.abs dy
  else PrimFloat.sqrt
         (PrimFloat.add (PrimFloat.mul dx dx) (PrimFloat.mul dy dy)).

(** The rational that a finite float is; 0 for infinities and NaN. *)
Definition exact (f : float) : Q :=
  match Prim2SF f with
  | S754_finite s m e =>
      let z := if s then Z.neg m else Z.pos m in
      if (e <? 0)%Z then Qmake z (2 ^ Z.to_pos (- e))%positive
      else inject_Z (z * 2 ^ e)
  | _ => 0%Q
  end.

Module Arena.

Record t : Type := mk { cx : float; cy : float; radius : float }.

End Arena.

Module TrailManager.

Definition sample : Type := (float * float)%type.
Definition impact : Type := (sample * float * rgb)%type.

Record t : Type := mk { motion_trail : list sample; impacts : list impact }.

Definition init : t := mk [] [].

Definition push_position (x y : float) (tm : t) : t :=
  mk (deque_append TRAIL_LEN (motion_trail tm) (x, y)) (impacts tm).

Definition add_impact (pos : sample) (color : rgb) (tm : t) : t :=
  mk (motion_trail tm) (impacts tm ++ [(pos, IMPACT_LIFETIME, color)]).

Fixpoint update_loop (dt : float) (todo alive : list impact) : list impact :=
  match todo with
  | [] => alive
  | (pos, t, col) :: rest =>
      let t' := PrimFloat.sub t dt in
      if PrimFloat.ltb 0 t'
      then update_loop dt rest (alive ++ [(pos, t', col)])
      else update_loop dt rest alive
  end.

Definition update (dt : float) (tm : t) : t :=
  mk (motion_trail tm) (update_loop dt (impacts tm) []).

End TrailManager.

Module Ball.

Record t : Type := mk {
  x : float;
  y : float;
  vx : float;
  vy : float;
  radius : float;
  color_index : Z;
  arena : Arena.t;
  trails : TrailManager.t
}.

Definition set_pos (x' y' : float) (b : t) : t :=
  mk x' y' (vx b) (vy b) (radius b) (color_index b) (arena b) (trails b).

Definition set_vel (vx' vy' : float) (b : t) : t :=
  mk (x b) (y b) vx' vy' (radius b) (color_index b) (arena b) (trails b).

Definition set_radius (r : float) (b : t) : t :=
  mk (x b) (y b) (vx b) (vy b) r (color_index b) (arena b) (trails b).

Definition set_color_index (i : Z) (b : t) : t :=
  mk (x b) (y b) (vx b) (vy b) (radius b) i (arena b) (trails b).

Definition set_trails (tm : TrailManager.t) (b : t) : t :=
  mk (x b) (y b) (vx b) (vy b) (radius b) (color_index b) (arena b) tm.

Definition color (b : t) : res rgb := getitem COLORS (color_index b).

Definition cycle_color (b : t) : t :=
  set_color_index ((color_index b + 1) mod Z.of_nat (length COLORS))%Z b.

Definition _reflect_on_circle (normal_x normal_y : float) (b : t) : t :=
  let vn := PrimFloat.add (PrimFloat.mul (vx b) normal_x)
                          (PrimFloat.mul (vy b) normal_y) in
  let vt_x := PrimFloat.sub (vx b) (PrimFloat.mul vn normal_x) in
  let vt_y := PrimFloat.sub (vy b) (PrimFloat.mul vn normal_y) in
  let vn_reflected := PrimFloat.mul (PrimFloat.opp vn) RESTIUTION in
  let vt_x := PrimFloat.mul vt_x TANGENTIAL_FRICTION in
  let vt_y := PrimFloat.mul vt_y TANGENTIAL_FRICTION in
  set_vel (PrimFloat.add (PrimFloat.mul vn_reflected normal_x) vt_x)
          (PrimFloat.add (PrimFloat.mul vn_reflected normal_y) vt_y) b.

Definition apply_gravity (dt : float) (b : t) : t :=
  set_vel (vx b) (PrimFloat.add (vy b) (PrimFloat.mul GRAVITY dt)) b.

Definition apply_friction (b : t) : t :=
  set_vel (PrimFloat.mul (vx b) LINEAR_FRICTION)
          (PrimFloat.mul (vy b) LINEAR_FRICTION) b.

Definition integrate (dt : float) (b : t) : t :=
  set_pos (PrimFloat.add (x b) (PrimFloat.mul (vx b) dt))
          (PrimFloat.add (y b) (PrimFloat.mul (vy b) dt)) b.

Definition grow (dt : float) (b : t) : t :=
  let target_max := PrimFloat.mul (Arena.radius (arena b)) BALL_MAX_RATIO in
  if PrimFloat.ltb (radius b) target_max
  then set_radius
         (min target_max
              (PrimFloat.add (radius b) (PrimFloat.mul GROWTH_PER_SEC dt))) b
  else b.

Definition dx (b : t) : float := PrimFloat.sub (x b) (Arena.cx (arena b)).
Definition dy (b : t) : float := PrimFloat.sub (y b) (Arena.cy (arena b)).
Definition dist (b : t) : float := hypot (dx b) (dy b).
Definition max_dist (b : t) : float :=
  PrimFloat.sub (Arena.radius (arena b)) (radius b).

Definition normal (dx dy dist : float) : res (float * float) :=
  if PrimFloat.eqb dist 0 then Ok (1%float, 0%float)
  else
    nx <- fdiv dx dist ;;
    ny <- fdiv dy dist ;;
    Ok (nx, ny).

Definition bounce (b : t) : res t :=
  '(nx, ny) <- normal (dx b) (dy b) (dist b) ;;
  let b1 := set_pos
              (PrimFloat.add (Arena.cx (arena b)) (PrimFloat.mul nx (max_dist b)))
              (PrimFloat.add (Arena.cy (arena b)) (PrimFloat.mul ny (max_dist b)))
              b in
  let b2 := _reflect_on_circle nx ny b1 in
  col <- color b2 ;;
  let b3 := set_trails (TrailManager.add_impact (x b2, y b2) col (trails b2)) b2 in
  Ok (cycle_color b3).

Definition collide (b : t) : res t :=
  if PrimFloat.ltb (max_dist b) (dist b) then bounce b else Ok b.

Definition record_trail (dt : float) (b : t) : t :=
  let b1 := set_trails (TrailManager.push_position (x b) (y b) (trails b)) b in
  set_trails (TrailManager.update dt (trails b1)) b1.

Definition moved (dt : float) (b : t) : t :=
  grow dt (integrate dt (apply_friction (apply_gravity dt b))).

Definition update (dt : float) (b : t) : res t :=
  b' <- collide (moved dt b) ;;
  Ok (record_trail dt b').

(** The test [dist <= max_dist] of the containment invariant. *)
Definition contained (b : t) : bool := PrimFloat.leb (dist b) (max_dist b).

End Ball.

(** [TrailManager.update] called with each [dt] of [dts], first to last. *)
Definition update_all (dts : list float) (tm : TrailManager.t)
  : TrailManager.t :=
  fold_left (fun tm dt => TrailManager.update dt tm) dts tm.

(** The arena of the window, with a ball of radius 15.02 that flies
    horizontally towards the boundary, and the same arena with a ball at
    rest on its centre. *)
Definition app_arena : Arena.t := Arena.mk 400 300 250.

Definition grazing_ball : Ball.t :=
  Ball.mk 600 300 100 (-100) 15.02 0 app_arena TrailManager.init.

Definition center_ball : Ball.t :=
  Ball.mk 400 300 0 0 15 0 app_arena TrailManager.init.

End F64.

(** ** Rounding and range

    What the theorems over [R] need to know of binary64.  A float operation
    returns its exact result rounded to the nearest float, which is within
    the relative error [u64 = 2^-53] of it; [rounds x y] says that [y] may be
    what such an operation returns when the exact result is [x].  No
    operation of [Ball.update] overflows while the step and every field of
    the ball and of its arena are at most [OVERFLOW_SAFE = 2^500] in absolute
    value: products of two of them stay below [2^1024]. *)

Definition u64 : R := / 9007199254740992.

Definition rounds (x y : R) : Prop := Rabs (y - x) <= u64 * Rabs x.



(** The loop of [TrailManager.update] with the subtraction [t - dt] rounded:
    the impacts before and the impacts after. *)
Inductive rounded_update (dt : R)
  : list TrailManager.impact -> list TrailManager.impact -> Prop :=
| rounded_done : rounded_update dt [] []
| rounded_keep (pos : TrailManager.sample) (t : R) (col : rgb) (t' : R)
    (rest rest' : list TrailManager.impact) :
    rounds (t - dt) t' -> t' > 0 -> rounded_update dt rest rest' ->
    rounded_update dt ((pos, t, col) :: rest) ((pos, t', col) :: rest')
| rounded_drop (pos : TrailManager.sample) (t : R) (col : rgb) (t' : R)
    (rest rest' : list TrailManager.impact) :
    rounds (t - dt) t' -> ~ t' > 0 -> rounded_update dt rest rest' ->
    rounded_update dt ((pos, t, col) :: rest) rest'.

(** [TrailManager.update] called with each [dt] of [dts], first to last,
    every subtraction rounded. *)
Inductive rounded_updates
  : list R -> list TrailManager.impact -> list TrailManager.impact -> Prop :=
| rounded_none (l : list TrailManager.impact) : rounded_updates [] l l
| rounded_next (dt : R) (dts : list R) (l l1 l' : list TrailManager.impact) :
    rounded_update dt l l1 -> rounded_updates dts l1 l' ->
    rounded_updates (dt :: dts) l l'.

(** The floats [0.6] and [0.1], as the rationals they are. *)
Definition float_0_6 : R := 5404319552844595 / 9007199254740992.
Definition float_0_1 : R := 3602879701896397 / 36028797018963968.

(** The ball of [F64.grazing_ball], over [R], and a ball that drifts from
    the centre of the window's arena. *)
Definition grazing_ball : Ball.t :=
  Ball.mk 600 300 100 (- 100) (1502 / 100) 0 app_arena TrailManager.init.

Definition drifting_ball : Ball.t :=
  Ball.mk 400 300 10 (- 2) BALL_BASE_RADIUS 0 app_arena TrailManager.init.

(** A drawing command with its opacity set aside. *)
Definition erase_alpha (c : draw_cmd) : draw_cmd :=
  match c with
  | BlendLine color _ start_pos end_pos width =>
      BlendLine color 0 start_pos end_pos width
  | _ => c
  end.

(** The time elapsed over frames given as floats, exactly. *)
Definition exact_elapsed (dts : list float) : Q :=
  fold_right Qplus 0%Q (map F64.exact dts).

(** * Properties *)

(** ** The bounded deque *)

Section Deque.

Context {A : Type}.
Variable n : nat.

Lemma length_lastn (l : list A) : length (lastn n l) = Nat.min n (length l).
Proof. unfold lastn. rewrite length_skipn. lia. Qed.

Lemma lastn_short (l : list A) : (length l <= n)%nat -> lastn n l = l.
Proof.
  intros H. unfold lastn.
  replace (length l - n)%nat with 0%nat by lia. reflexivity.
Qed.

Lemma lastn_app_long (l xs : list A) :
  (n <= length xs)%nat -> lastn n (l ++ xs) = lastn n xs.
Proof.
  intros H. unfold lastn.
  rewrite length_app, skipn_app, skipn_all2 by lia.
  simpl. f_equal. lia.
Qed.

Lemma deque_append_lastn (d : list A) (v : A) :
  (length d <= n)%nat -> deque_append n d v = lastn n (d ++ [v]).
Proof.
  intros H. unfold deque_append, lastn.
  rewrite length_app. simpl length.
  destruct (Nat.ltb_spec n (length d + 1)) as [Hfull | Hroom].
  - replace (length d + 1 - n)%nat with 1%nat by lia.
    destruct (d ++ [v]); reflexivity.
  - replace (length d + 1 - n)%nat with 0%nat by lia. reflexivity.
Qed.

Lemma lastn_app_lastn (l xs : list A) :
  lastn n (lastn n l ++ xs) = lastn n (l ++ xs).
Proof.
  destruct (Nat.le_gt_cases (length l) n) as [Hs | Hl].
  - rewrite (lastn_short l) by exact Hs. reflexivity.
  - unfold lastn at 1 3.
    rewrite !length_app, length_lastn, !skipn_app, length_lastn.
    unfold lastn. rewrite skipn_skipn.
    f_equal; f_equal; lia.
Qed.

Lemma deque_extend_lastn (vs d : list A) :
  (length d <= n)%nat ->
  fold_left (deque_append n) vs d = lastn n (d ++ vs).
Proof.
  revert d. induction vs as [| v vs IH]; intros d Hd; simpl.
  - rewrite app_nil_r. symmetry. apply lastn_short, Hd.
  - rewrite deque_append_lastn by exact Hd.
    rewrite IH by (rewrite length_lastn; lia).
    rewrite lastn_app_lastn, <- app_assoc. reflexivity.
Qed.

Lemma deque_append_full (d : list A) (v : A) :
  (0 < n)%nat -> length d = n -> deque_append n d v = tl d ++ [v].
Proof.
  intros Hn H. unfold deque_append. rewrite length_app. simpl length.
  destruct (Nat.ltb_spec n (length d + 1)) as [_ | Hroom]; [| lia].
  destruct d as [| a d]; simpl; [| reflexivity].
  simpl in H. lia.
Qed.

Lemma deque_append_room (d : list A) (v : A) :
  (length d < n)%nat -> deque_append n d v = d ++ [v].
Proof.
  intros H. unfold deque_append. rewrite length_app. simpl length.
  destruct (Nat.ltb_spec n (length d + 1)); [lia | reflexivity].
Qed.

End Deque.

(** ** TrailManager *)

Section TrailManagerFacts.

Import TrailManager.

Lemma TRAIL_LEN_pos : (0 < TRAIL_LEN)%nat.
Proof. unfold TRAIL_LEN. lia. Qed.

Lemma motion_trail_push_all (pts : list sample) (tm : t) :
  motion_trail (push_all pts tm)
  = fold_left (deque_append TRAIL_LEN) pts (motion_trail tm).
Proof.
  unfold push_all. revert tm.
  induction pts as [| [px py] pts IH]; intros tm; simpl.
  - reflexivity.
  - rewrite IH. reflexivity.
Qed.

Lemma live_spec (i : impact) : live i = true <-> snd (fst i) > 0.
Proof.
  destruct i as [[pos t] col]. simpl.
  destruct (Rgt_dec t 0); split; intros H; try reflexivity; try assumption.
  - discriminate.
  - contradiction.
Qed.

Lemma update_loop_filter (dt : R) (todo alive : list impact) :
  update_loop dt todo alive = alive ++ filter live (map (decay dt) todo).
Proof.
  revert alive. induction todo as [| [[pos t] col] rest IH]; intros alive; simpl.
  - rewrite app_nil_r. reflexivity.
  - destruct (Rgt_dec (t - dt) 0); rewrite IH.
    + rewrite <- app_assoc. reflexivity.
    + reflexivity.
Qed.

Lemma impacts_update (dt : R) (tm : t) :
  impacts (update dt tm) = filter live (map (decay dt) (impacts tm)).
Proof. unfold update. simpl. apply update_loop_filter. Qed.

(** C6.  A trail that respects its capacity keeps respecting it after a push;
    a push on a full trail drops exactly the oldest sample and a push on a
    trail with room drops nothing; after any sequence of pushes the trail
    holds the last [TRAIL_LEN] samples of the old trail followed by the
    pushed points, in order, and [update] and [add_impact] leave its length
    alone; after more than [TRAIL_LEN] pushes the trail holds exactly the
    [TRAIL_LEN] most recent pushes, oldest first. *)
Theorem trail_capacity (tm : t) (pts : list sample) (x y : R) :
  (length (motion_trail tm) <= TRAIL_LEN)%nat ->
  (length (motion_trail (push_position x y tm)) <= TRAIL_LEN)%nat
  /\ (length (motion_trail tm) = TRAIL_LEN ->
      motion_trail (push_position x y tm) = tl (motion_trail tm) ++ [(x, y)])
  /\ (length (motion_trail tm) < TRAIL_LEN ->
      motion_trail (push_position x y tm) = motion_trail tm ++ [(x, y)])%nat
  /\ motion_trail (push_all pts tm)
     = lastn TRAIL_LEN (motion_trail tm ++ pts)
  /\ (length (motion_trail (push_all pts tm)) <= TRAIL_LEN)%nat
  /\ (forall dt, length (motion_trail (update dt tm)) <= TRAIL_LEN)%nat
  /\ (forall pos col,
        length (motion_trail (add_impact pos col tm)) <= TRAIL_LEN)%nat
  /\ (TRAIL_LEN < length pts ->
      motion_trail (push_all pts tm) = lastn TRAIL_LEN pts
      /\ length (motion_trail (push_all pts tm)) = TRAIL_LEN)%nat.
Proof.
  intros Hcap.
  assert (Hall : motion_trail (push_all pts tm)
                 = lastn TRAIL_LEN (motion_trail tm ++ pts)).
  { rewrite motion_trail_push_all. apply deque_extend_lastn, Hcap. }
  repeat split.
  - simpl. rewrite deque_append_lastn, length_lastn by exact Hcap. lia.
  - intros Hfull. simpl.
    apply deque_append_full; [apply TRAIL_LEN_pos | exact Hfull].
  - intros Hroom. simpl. apply deque_append_room, Hroom.
  - exact Hall.
  - rewrite Hall, length_lastn. lia.
  - intros dt. exact Hcap.
  - intros pos col. exact Hcap.
  - rewrite Hall. apply lastn_app_long. lia.
  - rewrite Hall, length_lastn, length_app. lia.
Qed.

Lemma trail_capacity_witness :
  (length (motion_trail init) <= TRAIL_LEN)%nat
  /\ (TRAIL_LEN < length sample_points)%nat
  /\ motion_trail (push_all sample_points init)
     = lastn TRAIL_LEN sample_points
  /\ length (motion_trail (push_all sample_points init)) = TRAIL_LEN.
Proof.
  assert (H0 : (length (motion_trail init) <= TRAIL_LEN)%nat)
    by (simpl; lia).
  assert (H1 : (TRAIL_LEN < length sample_points)%nat).
  { unfold sample_points. rewrite length_map, length_seq. lia. }
  split; [exact H0 |]. split; [exact H1 |].
  exact (proj2 (proj2 (proj2 (proj2 (proj2 (proj2 (proj2
           (trail_capacity init sample_points 0 0 H0))))))) H1).
Defined.

(** C10.  [update] leaves the motion trail as it is, and [push_position]
    leaves the impacts as they are. *)
Theorem trail_manager_frame (tm : t) (dt x y : R) :
  motion_trail (update dt tm) = motion_trail tm
  /\ impacts (push_position x y tm) = impacts tm.
Proof. split; reflexivity. Qed.

End TrailManagerFacts.

(** ** Geometry *)

Lemma hypot_nonneg (a b : R) : 0 <= hypot a b.
Proof. apply sqrt_pos. Qed.

Lemma hypot_sq (a b : R) : hypot a b * hypot a b = a * a + b * b.
Proof. unfold hypot. apply sqrt_sqrt. nra. Qed.

Lemma hypot_0 : hypot 0 0 = 0.
Proof.
  unfold hypot. replace (0 * 0 + 0 * 0) with 0 by ring. apply sqrt_0.
Qed.

Lemma hypot_eq_0 (a b : R) : hypot a b = 0 -> a = 0 /\ b = 0.
Proof.
  intros H. pose proof (hypot_sq a b) as Hsq. rewrite H in Hsq. nra.
Qed.

Lemma hypot_0_l (b : R) : 0 <= b -> hypot 0 b = b.
Proof.
  intros Hb. unfold hypot. replace (0 * 0 + b * b) with (b * b) by ring.
  apply sqrt_square, Hb.
Qed.

Lemma hypot_scale (a b k : R) : hypot (a * k) (b * k) = hypot a b * Rabs k.
Proof.
  unfold hypot.
  replace (a * k * (a * k) + b * k * (b * k)) with ((a * a + b * b) * Rsqr k)
    by (unfold Rsqr; ring).
  rewrite sqrt_mult; [| nra | apply Rle_0_sqr].
  rewrite sqrt_Rsqr_abs. reflexivity.
Qed.

Lemma hypot_unit (a b d : R) :
  d = hypot a b -> d <> 0 -> hypot (a / d) (b / d) = 1.
Proof.
  intros Hd Hne. unfold Rdiv. rewrite hypot_scale, <- Hd.
  assert (0 < d) by (pose proof (hypot_nonneg a b); lra).
  rewrite Rabs_pos_eq; [field; exact Hne |].
  left. apply Rinv_0_lt_compat. assumption.
Qed.

Lemma unit_normal_sq (nx ny : R) : hypot nx ny = 1 -> nx * nx + ny * ny = 1.
Proof. intros H. rewrite <- hypot_sq, H. ring. Qed.

(** ** Python primitives *)

Lemma getitem_in_range {A : Type} (l : list A) (i : Z) :
  (0 <= i < Z.of_nat (length l))%Z -> exists a, getitem l i = Ok a.
Proof.
  intros Hi. unfold getitem.
  destruct (Z.ltb_spec i 0) as [Hneg | _]; [lia |].
  destruct (Z.ltb_spec i 0) as [Hneg | _]; [lia |].
  destruct (Z.leb_spec (Z.of_nat (length l)) i) as [Hbig | _]; [lia |].
  simpl. destruct (nth_error l (Z.to_nat i)) as [a |] eqn:Hnth.
  - exists a. reflexivity.
  - apply nth_error_None in Hnth. lia.
Qed.

Lemma normal_zero (dx dy : R) : Ball.normal dx dy 0 = Ok (1, 0).
Proof.
  unfold Ball.normal. destruct (Req_dec_T 0 0) as [_ | Hne].
  - reflexivity.
  - exfalso. apply Hne. reflexivity.
Qed.

Lemma normal_nonzero (dx dy d : R) :
  d <> 0 -> Ball.normal dx dy d = Ok (dx / d, dy / d).
Proof.
  intros Hd. unfold Ball.normal, fdiv.
  destruct (Req_dec_T d 0) as [H0 | _]; [contradiction |].
  reflexivity.
Qed.

Lemma normal_total (dx dy d : R) : exists n, Ball.normal dx dy d = Ok n.
Proof.
  destruct (Req_dec_T d 0) as [-> | Hd].
  - exists (1, 0). apply normal_zero.
  - exists (dx / d, dy / d). apply normal_nonzero, Hd.
Qed.

(** ** The phases of [Ball.update] *)

Lemma moved_fields (dt : R) (b : Ball.t) :
  Ball.vx (Ball.moved dt b) = Ball.vx b * LINEAR_FRICTION
  /\ Ball.vy (Ball.moved dt b) = (Ball.vy b + GRAVITY * dt) * LINEAR_FRICTION
  /\ Ball.x (Ball.moved dt b) = Ball.x b + Ball.vx b * LINEAR_FRICTION * dt
  /\ Ball.y (Ball.moved dt b)
     = Ball.y b + (Ball.vy b + GRAVITY * dt) * LINEAR_FRICTION * dt
  /\ Ball.color_index (Ball.moved dt b) = Ball.color_index b
  /\ Ball.arena (Ball.moved dt b) = Ball.arena b
  /\ Ball.trails (Ball.moved dt b) = Ball.trails b.
Proof.
  unfold Ball.moved, Ball.grow.
  destruct (Rlt_dec _ _); repeat split; reflexivity.
Qed.

Lemma moved_radius (dt : R) (b : Ball.t) :
  Ball.radius (Ball.moved dt b)
  = if Rlt_dec (Ball.radius b) (Ball.target_max b)
    then Rmin (Ball.target_max b) (Ball.radius b + GROWTH_PER_SEC * dt)
    else Ball.radius b.
Proof.
  unfold Ball.moved, Ball.grow, Ball.target_max. simpl.
  destruct (Rlt_dec _ _); reflexivity.
Qed.

Lemma record_trail_fields (dt : R) (b : Ball.t) :
  Ball.x (Ball.record_trail dt b) = Ball.x b
  /\ Ball.y (Ball.record_trail dt b) = Ball.y b
  /\ Ball.vx (Ball.record_trail dt b) = Ball.vx b
  /\ Ball.vy (Ball.record_trail dt b) = Ball.vy b
  /\ Ball.radius (Ball.record_trail dt b) = Ball.radius b
  /\ Ball.color_index (Ball.record_trail dt b) = Ball.color_index b
  /\ Ball.arena (Ball.record_trail dt b) = Ball.arena b.
Proof. repeat split; reflexivity. Qed.


(** The ball that [bounce] returns once the normal and the colour are known. *)
Lemma bounce_result (b : Ball.t) :
  (0 <= Ball.color_index b < Z.of_nat (length COLORS))%Z ->
  exists nx ny col,
    Ball.normal (Ball.dx b) (Ball.dy b) (Ball.dist b) = Ok (nx, ny)
    /\ getitem COLORS (Ball.color_index b) = Ok col
    /\ Ball.bounce b
       = Ok (Ball.cycle_color
               (Ball.set_trails
                  (TrailManager.add_impact
                     (Arena.cx (Ball.arena b) + nx * Ball.max_dist b,
                      Arena.cy (Ball.arena b) + ny * Ball.max_dist b)
                     col (Ball.trails b))
                  (Ball._reflect_on_circle nx ny
                     (Ball.set_pos
                        (Arena.cx (Ball.arena b) + nx * Ball.max_dist b)
                        (Arena.cy (Ball.arena b) + ny * Ball.max_dist b) b)))).
Proof.
  intros Hci.
  destruct (normal_total (Ball.dx b) (Ball.dy b) (Ball.dist b)) as [[nx ny] Hn].
  destruct (getitem_in_range COLORS (Ball.color_index b) Hci) as [col Hcol].
  exists nx, ny, col. split; [exact Hn |]. split; [exact Hcol |].
  unfold Ball.bounce. rewrite Hn. cbn [bind].
  unfold Ball.color. cbn [Ball.color_index Ball._reflect_on_circle
                          Ball.set_vel Ball.set_pos].
  rewrite Hcol. reflexivity.
Qed.

Lemma update_no_collision (dt : R) (b : Ball.t) :
  ~ Ball.collides dt b ->
  Ball.update dt b = Ok (Ball.record_trail dt (Ball.moved dt b)).
Proof.
  intros Hno. unfold Ball.update, Ball.collide.
  destruct (Rgt_dec _ _) as [Hhit | _]; [contradiction | reflexivity].
Qed.

Lemma update_collision (dt : R) (b : Ball.t) :
  Ball.collides dt b ->
  Ball.update dt b
  = (b' <- Ball.bounce (Ball.moved dt b) ;; Ok (Ball.record_trail dt b')).
Proof.
  intros Hhit. unfold Ball.update, Ball.collide.
  destruct (Rgt_dec _ _) as [_ | Hno]; [reflexivity | contradiction].
Qed.

Lemma init_well_formed (a : Arena.t) (ang : R) :
  0 <= Arena.radius a -> Ball.well_formed (Ball.init a ang).
Proof. intros Ha. split; simpl; [exact Ha | lia]. Qed.

Lemma cycle_color_in_range (b : Ball.t) :
  (0 <= Ball.color_index (Ball.cycle_color b) < Z.of_nat (length COLORS))%Z.
Proof. simpl. apply Z.mod_pos_bound. lia. Qed.

(** One frame from a well-formed ball: [update] returns, and what it returns
    in each of its two branches. *)
Lemma update_frame (dt : R) (b : Ball.t) :
  Ball.well_formed b ->
  exists b',
    Ball.update dt b = Ok b'
    /\ Ball.well_formed b'
    /\ Ball.arena b' = Ball.arena b
    /\ Ball.radius b' = Ball.radius (Ball.moved dt b)
    /\ (~ Ball.collides dt b -> b' = Ball.record_trail dt (Ball.moved dt b))
    /\ (Ball.collides dt b ->
        exists nx ny,
          Ball.normal (Ball.dx (Ball.moved dt b)) (Ball.dy (Ball.moved dt b))
                      (Ball.dist (Ball.moved dt b)) = Ok (nx, ny)
          /\ Ball.x b' = Arena.cx (Ball.arena b)
                         + nx * Ball.max_dist (Ball.moved dt b)
          /\ Ball.y b' = Arena.cy (Ball.arena b)
                         + ny * Ball.max_dist (Ball.moved dt b)
          /\ Ball.vx b' = Ball.vx (Ball._reflect_on_circle nx ny (Ball.moved dt b))
          /\ Ball.vy b' = Ball.vy (Ball._reflect_on_circle nx ny (Ball.moved dt b))
          /\ Ball.color_index b'
             = ((Ball.color_index b + 1) mod Z.of_nat (length COLORS))%Z).
Proof.
  intros [Hrad Hci].
  destruct (moved_fields dt b) as (_ & _ & _ & _ & Hmci & Hmar & _).
  destruct (Rgt_dec (Ball.dist (Ball.moved dt b)) (Ball.max_dist (Ball.moved dt b)))
    as [Hhit | Hno].
  - assert (Hci' : (0 <= Ball.color_index (Ball.moved dt b)
                    < Z.of_nat (length COLORS))%Z) by (rewrite Hmci; exact Hci).
    destruct (bounce_result (Ball.moved dt b) Hci')
      as (nx & ny & col & Hn & _ & Hb).
    rewrite update_collision, Hb by exact Hhit. cbn [bind].
    eexists. split; [reflexivity |].
    split.
    { split.
      - cbn. rewrite Hmar. exact Hrad.
      - apply cycle_color_in_range. }
    split; [cbn; exact Hmar |].
    split; [reflexivity |].
    split; [intros Hno; contradiction |].
    intros _. exists nx, ny. split; [exact Hn |].
    cbn. rewrite Hmar, Hmci. repeat split; reflexivity.
  - rewrite update_no_collision by exact Hno.
    eexists. split; [reflexivity |].
    split.
    { split; cbn; [rewrite Hmar; exact Hrad | rewrite Hmci; exact Hci]. }
    split; [cbn; exact Hmar |].
    split; [reflexivity |].
    split; [reflexivity |].
    intros Hhit. contradiction.
Qed.

(** What a frame does to the radius, whether or not the ball bounces. *)
Lemma update_radius (dt : R) (b b' : Ball.t) :
  Ball.update dt b = Ok b' ->
  Ball.radius b' = Ball.radius (Ball.moved dt b)
  /\ Ball.arena b' = Ball.arena b.
Proof.
  destruct (moved_fields dt b) as (_ & _ & _ & _ & _ & Hmar & _).
  unfold Ball.update, Ball.collide.
  destruct (Rgt_dec _ _) as [Hhit | Hno].
  - unfold Ball.bounce.
    destruct (Ball.normal _ _ _) as [[nx ny] | e]; cbn [bind]; [| discriminate].
    destruct (Ball.color _) as [col | e]; cbn [bind]; [| discriminate].
    intros H. injection H as <-. split; [reflexivity | exact Hmar].
  - cbn [bind]. intros H. injection H as <-. split; [reflexivity | exact Hmar].
Qed.

Lemma grow_step (dt : R) (b : Ball.t) :
  0 <= dt ->
  Ball.radius b <= Ball.radius (Ball.moved dt b)
  /\ Ball.radius (Ball.moved dt b) - Ball.radius b <= GROWTH_PER_SEC * dt
  /\ (Ball.radius b <= Ball.target_max b ->
      Ball.radius (Ball.moved dt b) <= Ball.target_max b).
Proof.
  intros Hdt. rewrite moved_radius. unfold GROWTH_PER_SEC.
  destruct (Rlt_dec _ _) as [Hlt | Hge].
  - unfold Rmin. destruct (Rle_dec _ _); repeat split; intros; lra.
  - repeat split; intros; lra.
Qed.


Lemma run_app (dts1 dts2 : list R) (b : Ball.t) :
  run (dts1 ++ dts2) b = (b1 <- run dts1 b ;; run dts2 b1).
Proof.
  revert b. induction dts1 as [| dt rest IH]; intros b; simpl.
  - reflexivity.
  - destruct (Ball.update dt b) as [b' | e]; cbn [bind]; [apply IH | reflexivity].
Qed.

Lemma run_radius (dts : list R) (b : Ball.t) :
  Ball.well_formed b ->
  Forall (fun dt => 0 <= dt) dts ->
  exists b',
    run dts b = Ok b'
    /\ Ball.well_formed b'
    /\ Ball.arena b' = Ball.arena b
    /\ Ball.radius b <= Ball.radius b'
    /\ Ball.radius b' - Ball.radius b <= GROWTH_PER_SEC * elapsed dts
    /\ (Ball.radius b <= Ball.target_max b ->
        Ball.radius b' <= Ball.target_max b').
Proof.
  revert b. induction dts as [| dt rest IH]; intros b Hwf Hdts.
  - exists b. simpl. repeat split; try apply Hwf; try lra.
  - inversion Hdts as [| ? ? Hdt Hrest]; subst.
    destruct (update_frame dt b Hwf) as (b1 & Hup & Hwf1 & Har1 & Hr1 & _).
    destruct (IH b1 Hwf1 Hrest) as (b' & Hrun & Hwf' & Har' & Hmono & Hrate & Hcap).
    destruct (grow_step dt b Hdt) as (Hm1 & Hrate1 & Hcap1).
    exists b'. simpl. rewrite Hup. cbn [bind].
    split; [exact Hrun |]. split; [exact Hwf' |].
    split; [congruence |].
    rewrite <- Hr1 in Hm1, Hrate1, Hcap1.
    split; [lra |]. split; [lra |].
    intros Hb. apply Hcap. unfold Ball.target_max in *. rewrite Har1.
    apply Hcap1, Hb.
Qed.

(** ** Ball *)

Lemma center_ball_well_formed : Ball.well_formed center_ball.
Proof. split; simpl; [lra | lia]. Qed.

(** C2.  Over any run of frames with [dt >= 0] from a well-formed ball, the
    radius never decreases: after any prefix of the run it lies between the
    radius at the start and the radius at the end, it gains at most
    [GROWTH_PER_SEC] per unit of time, and it stays at or below
    [arena.radius * BALL_MAX_RATIO] when it starts there.  A single frame
    either leaves the radius alone or sets it to
    [min(target_max, radius + GROWTH_PER_SEC * dt)]. *)
Theorem radius_growth (b : Ball.t) (dts : list R) :
  Ball.well_formed b ->
  Forall (fun dt => 0 <= dt) dts ->
  (exists b',
     run dts b = Ok b'
     /\ Ball.arena b' = Ball.arena b
     /\ Ball.radius b <= Ball.radius b'
     /\ Ball.radius b' - Ball.radius b <= GROWTH_PER_SEC * elapsed dts
     /\ (Ball.radius b <= Ball.target_max b ->
         Ball.radius b' <= Ball.target_max b)
     /\ forall pre post, dts = pre ++ post ->
          exists b1, run pre b = Ok b1
                     /\ Ball.radius b <= Ball.radius b1 <= Ball.radius b')
  /\ (forall dt b1, Ball.update dt b = Ok b1 ->
        Ball.radius b1
        = if Rlt_dec (Ball.radius b) (Ball.target_max b)
          then Rmin (Ball.target_max b) (Ball.radius b + GROWTH_PER_SEC * dt)
          else Ball.radius b).
Proof.
  intros Hwf Hdts. split.
  - destruct (run_radius dts b Hwf Hdts)
      as (b' & Hrun & _ & Har & Hmono & Hrate & Hcap).
    exists b'. split; [exact Hrun |]. split; [exact Har |].
    split; [exact Hmono |]. split; [exact Hrate |].
    split.
    { intros Hb. unfold Ball.target_max in *. rewrite <- Har.
      apply Hcap, Hb. }
    intros pre post ->. apply Forall_app in Hdts as [Hpre Hpost].
    destruct (run_radius pre b Hwf Hpre) as (b1 & Hrun1 & Hwf1 & _ & Hm1 & _).
    destruct (run_radius post b1 Hwf1 Hpost) as (b2 & Hrun2 & _ & _ & Hm2 & _).
    exists b1. split; [exact Hrun1 |].
    rewrite run_app, Hrun1 in Hrun. cbn [bind] in Hrun.
    rewrite Hrun2 in Hrun. injection Hrun as <-. lra.
  - intros dt b1 Hup. destruct (update_radius dt b b1 Hup) as [-> _].
    apply moved_radius.
Qed.

Lemma radius_growth_witness :
  Ball.well_formed center_ball
  /\ Forall (fun dt => 0 <= dt) [1 / 100; 1 / 100]
  /\ exists b',
       run [1 / 100; 1 / 100] center_ball = Ok b'
       /\ Ball.radius center_ball <= Ball.radius b'
       /\ Ball.radius b' - Ball.radius center_ball
          <= GROWTH_PER_SEC * elapsed [1 / 100; 1 / 100].
Proof.
  assert (H : Forall (fun dt => 0 <= dt) [1 / 100; 1 / 100]).
  { repeat constructor; lra. }
  split; [exact center_ball_well_formed |]. split; [exact H |].
  destruct (proj1 (radius_growth center_ball [1 / 100; 1 / 100]
                     center_ball_well_formed H))
    as (b' & Hrun & _ & Hmono & Hrate & _).
  exists b'. split; [exact Hrun |]. split; [exact Hmono | exact Hrate].
Defined.

(** C4.  [update] first adds [GRAVITY * dt] to [vy], then multiplies both
    velocity components by [LINEAR_FRICTION], once and whatever [dt] is, then
    moves the position by the new velocity times [dt]; the collision test and
    the collision branch work on the position so obtained, and a frame
    without collision returns exactly these values. *)
Theorem kinematic_order (dt : R) (b : Ball.t) :
  Ball.moved dt b
  = Ball.grow dt (Ball.integrate dt (Ball.apply_friction (Ball.apply_gravity dt b)))
  /\ Ball.update dt b
     = (b' <- Ball.collide (Ball.moved dt b) ;; Ok (Ball.record_trail dt b'))
  /\ Ball.vx (Ball.moved dt b) = Ball.vx b * LINEAR_FRICTION
  /\ Ball.vy (Ball.moved dt b) = (Ball.vy b + GRAVITY * dt) * LINEAR_FRICTION
  /\ Ball.x (Ball.moved dt b) = Ball.x b + Ball.vx (Ball.moved dt b) * dt
  /\ Ball.y (Ball.moved dt b) = Ball.y b + Ball.vy (Ball.moved dt b) * dt
  /\ (Ball.collides dt b <->
      hypot (Ball.x b + Ball.vx b * LINEAR_FRICTION * dt
             - Arena.cx (Ball.arena b))
            (Ball.y b + (Ball.vy b + GRAVITY * dt) * LINEAR_FRICTION * dt
             - Arena.cy (Ball.arena b))
      > Arena.radius (Ball.arena b) - Ball.radius (Ball.moved dt b))
  /\ (~ Ball.collides dt b ->
      exists b',
        Ball.update dt b = Ok b'
        /\ Ball.vx b' = Ball.vx b * LINEAR_FRICTION
        /\ Ball.vy b' = (Ball.vy b + GRAVITY * dt) * LINEAR_FRICTION
        /\ Ball.x b' = Ball.x b + Ball.vx b * LINEAR_FRICTION * dt
        /\ Ball.y b' = Ball.y b + (Ball.vy b + GRAVITY * dt) * LINEAR_FRICTION * dt).
Proof.
  destruct (moved_fields dt b) as (Hvx & Hvy & Hx & Hy & _ & Har & _).
  split; [reflexivity |]. split; [reflexivity |].
  split; [exact Hvx |]. split; [exact Hvy |].
  split; [rewrite Hx, Hvx; reflexivity |].
  split; [rewrite Hy, Hvy; reflexivity |].
  split.
  - unfold Ball.collides, Ball.dist, Ball.dx, Ball.dy, Ball.max_dist.
    rewrite Hx, Hy, Har. reflexivity.
  - intros Hno. exists (Ball.record_trail dt (Ball.moved dt b)).
    split; [apply update_no_collision, Hno |].
    destruct (record_trail_fields dt (Ball.moved dt b))
      as (-> & -> & -> & -> & _).
    repeat split; assumption.
Qed.

(** A ball at rest at the centre of its arena falls by
    [GRAVITY * LINEAR_FRICTION * dt * dt] in its first frame, which keeps it
    clear of the boundary when [dt] is small. *)
Lemma rest_at_center_clear (dt : R) (b : Ball.t) :
  Ball.x b = Arena.cx (Ball.arena b) ->
  Ball.y b = Arena.cy (Ball.arena b) ->
  Ball.vx b = 0 ->
  Ball.vy b = 0 ->
  Ball.radius b <= Ball.target_max b ->
  0 < dt ->
  GRAVITY * dt * dt <= Arena.radius (Ball.arena b) * (1 - BALL_MAX_RATIO) ->
  Ball.dist (Ball.moved dt b) = GRAVITY * LINEAR_FRICTION * dt * dt
  /\ Ball.dist (Ball.moved dt b) < Ball.max_dist (Ball.moved dt b).
Proof.
  intros Hx Hy Hvx Hvy Hcap Hdt Hsmall.
  destruct (moved_fields dt b) as (_ & _ & Hmx & Hmy & _ & Har & _).
  assert (Hd : Ball.dist (Ball.moved dt b) = GRAVITY * LINEAR_FRICTION * dt * dt).
  { unfold Ball.dist, Ball.dx, Ball.dy. rewrite Hmx, Hmy, Har, Hx, Hy, Hvx, Hvy.
    match goal with
    | |- hypot ?a ?c = _ =>
        replace a with 0 by ring;
        replace c with (GRAVITY * LINEAR_FRICTION * dt * dt) by ring
    end.
    apply hypot_0_l. unfold GRAVITY, LINEAR_FRICTION. nra. }
  split; [exact Hd |]. rewrite Hd.
  destruct (grow_step dt b (Rlt_le _ _ Hdt)) as (_ & _ & Hle).
  specialize (Hle Hcap).
  unfold Ball.max_dist. rewrite Har.
  unfold Ball.target_max, BALL_MAX_RATIO, GRAVITY, LINEAR_FRICTION in *.
  nra.
Qed.

Lemma center_ball_clear :
  ~ Ball.collides (1 / 100) center_ball.
Proof.
  unfold Ball.collides.
  assert (H : Ball.dist (Ball.moved (1 / 100) center_ball)
              < Ball.max_dist (Ball.moved (1 / 100) center_ball)).
  { apply rest_at_center_clear; try reflexivity.
    - unfold Ball.target_max, BALL_MAX_RATIO. simpl. unfold BALL_BASE_RADIUS. lra.
    - lra.
    - unfold GRAVITY, BALL_MAX_RATIO. simpl. lra. }
  lra.
Qed.

Lemma kinematic_order_witness :
  ~ Ball.collides (1 / 100) center_ball
  /\ exists b',
       Ball.update (1 / 100) center_ball = Ok b'
       /\ Ball.vx b' = Ball.vx center_ball * LINEAR_FRICTION
       /\ Ball.vy b'
          = (Ball.vy center_ball + GRAVITY * (1 / 100)) * LINEAR_FRICTION
       /\ Ball.x b'
          = Ball.x center_ball + Ball.vx center_ball * LINEAR_FRICTION * (1 / 100)
       /\ Ball.y b'
          = Ball.y center_ball
            + (Ball.vy center_ball + GRAVITY * (1 / 100))
              * LINEAR_FRICTION * (1 / 100).
Proof.
  split; [exact center_ball_clear |].
  exact (proj2 (proj2 (proj2 (proj2 (proj2 (proj2 (proj2
           (kinematic_order (1 / 100) center_ball)))))))
           center_ball_clear).
Defined.

(** C5, as the code has it.  A ball at rest at the centre of its arena, no
    larger than its cap, updated with a [dt > 0] small enough that
    [GRAVITY * dt * dt <= arena.radius * (1 - BALL_MAX_RATIO)]: gravity adds
    [GRAVITY * dt] to [vy] and the friction of the same frame scales it, so
    [vy] ends at [GRAVITY * dt * LINEAR_FRICTION]; [vx] stays zero, [x] stays
    put, [y] moves by the new [vy * dt]; the collision branch is not taken
    ([dist < max_dist]), so the colour index is kept and no impact is
    added. *)
Theorem gravity_from_rest (dt : R) (b : Ball.t) :
  Ball.x b = Arena.cx (Ball.arena b) ->
  Ball.y b = Arena.cy (Ball.arena b) ->
  Ball.vx b = 0 ->
  Ball.vy b = 0 ->
  Ball.radius b <= Ball.target_max b ->
  0 < dt ->
  GRAVITY * dt * dt <= Arena.radius (Ball.arena b) * (1 - BALL_MAX_RATIO) ->
  Ball.dist (Ball.moved dt b) < Ball.max_dist (Ball.moved dt b)
  /\ ~ Ball.collides dt b
  /\ exists b',
       Ball.update dt b = Ok b'
       /\ Ball.vx b' = 0
       /\ Ball.vy b' = GRAVITY * dt * LINEAR_FRICTION
       /\ Ball.x b' = Ball.x b
       /\ Ball.y b' = Ball.y b + Ball.vy b' * dt
       /\ Ball.color_index b' = Ball.color_index b
       /\ TrailManager.impacts (Ball.trails b')
          = TrailManager.impacts (TrailManager.update dt (Ball.trails b)).
Proof.
  intros Hx Hy Hvx Hvy Hcap Hdt Hsmall.
  destruct (rest_at_center_clear dt b Hx Hy Hvx Hvy Hcap Hdt Hsmall) as [_ Hlt].
  assert (Hno : ~ Ball.collides dt b) by (unfold Ball.collides; lra).
  split; [exact Hlt |]. split; [exact Hno |].
  exists (Ball.record_trail dt (Ball.moved dt b)).
  split; [apply update_no_collision, Hno |].
  destruct (moved_fields dt b) as (Hmvx & Hmvy & Hmx & Hmy & Hmci & _ & Hmtr).
  destruct (record_trail_fields dt (Ball.moved dt b))
    as (-> & -> & -> & -> & _ & -> & _).
  rewrite Hmvx, Hmvy, Hmx, Hmy, Hmci, Hvx, Hvy.
  repeat split; try ring.
  cbn. rewrite Hmtr. reflexivity.
Qed.

Lemma gravity_from_rest_witness :
  Ball.radius center_ball <= Ball.target_max center_ball
  /\ 0 < 1 / 100
  /\ GRAVITY * (1 / 100) * (1 / 100)
     <= Arena.radius (Ball.arena center_ball) * (1 - BALL_MAX_RATIO)
  /\ exists b',
       Ball.update (1 / 100) center_ball = Ok b'
       /\ Ball.vy b' = GRAVITY * (1 / 100) * LINEAR_FRICTION.
Proof.
  assert (H1 : Ball.radius center_ball <= Ball.target_max center_ball).
  { unfold Ball.target_max, BALL_MAX_RATIO. simpl. unfold BALL_BASE_RADIUS. lra. }
  assert (H2 : 0 < 1 / 100) by lra.
  assert (H3 : GRAVITY * (1 / 100) * (1 / 100)
               <= Arena.radius (Ball.arena center_ball) * (1 - BALL_MAX_RATIO)).
  { unfold GRAVITY, BALL_MAX_RATIO. simpl. lra. }
  split; [exact H1 |]. split; [exact H2 |]. split; [exact H3 |].
  destruct (gravity_from_rest (1 / 100) center_ball
              eq_refl eq_refl eq_refl eq_refl H1 H2 H3)
    as (_ & _ & b' & Hup & _ & Hvy & _).
  exists b'. split; [exact Hup | exact Hvy].
Defined.

(** C5, as the claim has it, fails on the ball at rest at the centre of the
    window's arena with [dt = 1/100]: the frame returns, without collision,
    and [vy] has not increased by [GRAVITY * dt]. *)
Lemma gravity_from_rest_counterexample :
  ~ Ball.collides (1 / 100) center_ball
  /\ exists b',
       Ball.update (1 / 100) center_ball = Ok b'
       /\ Ball.vy b' <> Ball.vy center_ball + GRAVITY * (1 / 100).
Proof.
  split; [exact center_ball_clear |].
  exists (Ball.record_trail (1 / 100) (Ball.moved (1 / 100) center_ball)).
  split; [apply update_no_collision, center_ball_clear |].
  destruct (moved_fields (1 / 100) center_ball) as (_ & Hvy & _).
  destruct (record_trail_fields (1 / 100) (Ball.moved (1 / 100) center_ball))
    as (_ & _ & _ & -> & _).
  rewrite Hvy. simpl. unfold GRAVITY, LINEAR_FRICTION. lra.
Qed.

(** C3.  [_reflect_on_circle] on a unit normal [n]: the new velocity is
    [(-vn * RESTIUTION) * n + vt * TANGENTIAL_FRICTION] for the normal
    component [vn] and the tangential part [vt] of the old one; its own
    normal component is [-vn * RESTIUTION] and its own tangential part is
    [vt * TANGENTIAL_FRICTION], so their magnitudes are those of [vn] and
    [vt] scaled by the two coefficients, and strictly smaller when [vn],
    respectively [vt], is not zero.  Nothing but the velocity changes. *)
Theorem reflection_decomposition (nx ny : R) (b : Ball.t) :
  nx * nx + ny * ny = 1 ->
  let vn := normal_part (Ball.vx b) (Ball.vy b) nx ny in
  let vt := tangent_part (Ball.vx b) (Ball.vy b) nx ny in
  let b' := Ball._reflect_on_circle nx ny b in
  let vn' := normal_part (Ball.vx b') (Ball.vy b') nx ny in
  let vt' := tangent_part (Ball.vx b') (Ball.vy b') nx ny in
  Ball.vx b' = (- vn * RESTIUTION) * nx + fst vt * TANGENTIAL_FRICTION
  /\ Ball.vy b' = (- vn * RESTIUTION) * ny + snd vt * TANGENTIAL_FRICTION
  /\ vn' = - vn * RESTIUTION
  /\ vt' = (fst vt * TANGENTIAL_FRICTION, snd vt * TANGENTIAL_FRICTION)
  /\ Rabs vn' = Rabs vn * RESTIUTION
  /\ hypot (fst vt') (snd vt') = hypot (fst vt) (snd vt) * TANGENTIAL_FRICTION
  /\ (vn <> 0 -> Rabs vn' < Rabs vn)
  /\ (vt <> (0, 0) -> hypot (fst vt') (snd vt') < hypot (fst vt) (snd vt))
  /\ Ball.set_vel (Ball.vx b) (Ball.vy b) b' = b.
Proof.
  intros Hunit vn vt b' vn' vt'.
  assert (Hvx : Ball.vx b'
                = (- vn * RESTIUTION) * nx + fst vt * TANGENTIAL_FRICTION)
    by reflexivity.
  assert (Hvy : Ball.vy b'
                = (- vn * RESTIUTION) * ny + snd vt * TANGENTIAL_FRICTION)
    by reflexivity.
  assert (Hvn : vn' = - vn * RESTIUTION).
  { unfold vn'. rewrite Hvx, Hvy. unfold normal_part. simpl fst. simpl snd.
    fold (normal_part (Ball.vx b) (Ball.vy b) nx ny). fold vn.
    transitivity (- vn * RESTIUTION * (nx * nx + ny * ny)
                  + TANGENTIAL_FRICTION
                    * (Ball.vx b * nx + Ball.vy b * ny
                       - vn * (nx * nx + ny * ny))); [ring |].
    rewrite Hunit. fold (normal_part (Ball.vx b) (Ball.vy b) nx ny). fold vn.
    ring. }
  assert (Hvt : vt' = (fst vt * TANGENTIAL_FRICTION, snd vt * TANGENTIAL_FRICTION)).
  { unfold vt', tangent_part. fold vn'. rewrite Hvn, Hvx, Hvy.
    f_equal; ring. }
  assert (HR : 0 <= RESTIUTION < 1) by (unfold RESTIUTION; lra).
  assert (HT : 0 <= TANGENTIAL_FRICTION < 1) by (unfold TANGENTIAL_FRICTION; lra).
  assert (Hmag_n : Rabs vn' = Rabs vn * RESTIUTION).
  { rewrite Hvn.
    replace (- vn * RESTIUTION) with ((- vn) * RESTIUTION) by ring.
    rewrite Rabs_mult, Rabs_Ropp, (Rabs_pos_eq RESTIUTION) by lra.
    reflexivity. }
  assert (Hmag_t : hypot (fst vt') (snd vt')
                   = hypot (fst vt) (snd vt) * TANGENTIAL_FRICTION).
  { rewrite Hvt. simpl fst. simpl snd.
    rewrite hypot_scale, (Rabs_pos_eq TANGENTIAL_FRICTION) by lra.
    reflexivity. }
  split; [exact Hvx |]. split; [exact Hvy |]. split; [exact Hvn |].
  split; [exact Hvt |]. split; [exact Hmag_n |]. split; [exact Hmag_t |].
  split; [| split].
  - intros Hne. rewrite Hmag_n.
    pose proof (Rabs_pos_lt vn Hne). nra.
  - intros Hne. rewrite Hmag_t.
    assert (0 < hypot (fst vt) (snd vt)).
    { pose proof (hypot_nonneg (fst vt) (snd vt)) as Hge.
      destruct Hge as [Hgt | Heq]; [exact Hgt |].
      exfalso. apply Hne. symmetry in Heq.
      destruct (hypot_eq_0 _ _ Heq) as [H1 H2].
      destruct vt as [t1 t2]. simpl in H1, H2. subst. reflexivity. }
    nra.
  - destruct b. reflexivity.
Qed.

Lemma reflection_decomposition_witness :
  1 * 1 + 0 * 0 = 1
  /\ normal_part
       (Ball.vx (Ball._reflect_on_circle 1 0 (Ball.set_vel 3 4 center_ball)))
       (Ball.vy (Ball._reflect_on_circle 1 0 (Ball.set_vel 3 4 center_ball)))
       1 0
     = - normal_part 3 4 1 0 * RESTIUTION.
Proof.
  assert (H : 1 * 1 + 0 * 0 = 1) by ring.
  split; [exact H |].
  exact (proj1 (proj2 (proj2
           (reflection_decomposition 1 0 (Ball.set_vel 3 4 center_ball) H)))).
Defined.

(** The colour index after a frame, in each branch. *)
Lemma update_color_index (dt : R) (b : Ball.t) :
  Ball.well_formed b ->
  exists b',
    Ball.update dt b = Ok b'
    /\ Ball.well_formed b'
    /\ Ball.color_index b'
       = if Rgt_dec (Ball.dist (Ball.moved dt b)) (Ball.max_dist (Ball.moved dt b))
         then ((Ball.color_index b + 1) mod Z.of_nat (length COLORS))%Z
         else Ball.color_index b.
Proof.
  intros Hwf.
  destruct (update_frame dt b Hwf) as (b' & Hup & Hwf' & _ & _ & Hno & Hhit).
  exists b'. split; [exact Hup |]. split; [exact Hwf' |].
  destruct (Rgt_dec _ _) as [Hc | Hnc].
  - destruct (Hhit Hc) as (nx & ny & _ & _ & _ & _ & _ & Hci). exact Hci.
  - rewrite (Hno Hnc).
    destruct (moved_fields dt b) as (_ & _ & _ & _ & Hmci & _).
    destruct (record_trail_fields dt (Ball.moved dt b))
      as (_ & _ & _ & _ & _ & -> & _).
    exact Hmci.
Qed.

Lemma run_color_index (dts : list R) (b : Ball.t) :
  Ball.well_formed b ->
  exists b',
    run dts b = Ok b'
    /\ Ball.color_index b'
       = ((Ball.color_index b + Z.of_nat (collisions dts b))
          mod Z.of_nat (length COLORS))%Z.
Proof.
  revert b. induction dts as [| dt rest IH]; intros b Hwf.
  - exists b. split; [reflexivity |].
    simpl collisions. rewrite Z.add_0_r. symmetry.
    apply Z.mod_small, Hwf.
  - destruct (update_color_index dt b Hwf) as (b1 & Hup & Hwf1 & Hci1).
    destruct (IH b1 Hwf1) as (b' & Hrun & Hci').
    exists b'. simpl run. simpl collisions. rewrite Hup. cbn [bind].
    split; [exact Hrun |].
    rewrite Hci', Hci1.
    destruct (Rgt_dec _ _) as [Hc | Hnc].
    + rewrite Zplus_mod_idemp_l. f_equal. lia.
    + f_equal.
Qed.

Lemma color_index_cycle_color (b : Ball.t) :
  Ball.color_index (Ball.cycle_color b)
  = ((Ball.color_index b + 1) mod Z.of_nat (length COLORS))%Z.
Proof. reflexivity. Qed.

Lemma iter_cycle_color (N : nat) (b : Ball.t) :
  (0 <= Ball.color_index b < Z.of_nat (length COLORS))%Z ->
  Ball.color_index (Nat.iter N Ball.cycle_color b)
  = ((Ball.color_index b + Z.of_nat N) mod Z.of_nat (length COLORS))%Z.
Proof.
  intros Hci. induction N as [| N IH].
  - simpl Nat.iter. rewrite Z.add_0_r. symmetry. apply Z.mod_small, Hci.
  - change (Nat.iter (S N) Ball.cycle_color b)
      with (Ball.cycle_color (Nat.iter N Ball.cycle_color b)).
    rewrite color_index_cycle_color, IH, Zplus_mod_idemp_l. f_equal. lia.
Qed.

(** C8.  A frame that takes the collision branch moves the colour index to
    [(color_index + 1) % len(COLORS)] and a frame that does not leaves it as
    it is; so over a run of frames with [N] collisions, and over [N] calls of
    [cycle_color], the index ends at the starting index advanced by [N], or
    as well by [N mod len(COLORS)], modulo the length of the palette. *)
Theorem color_cycling (b : Ball.t) (dts : list R) (dt : R) (N : nat) :
  Ball.well_formed b ->
  (exists b1,
     Ball.update dt b = Ok b1
     /\ (Ball.collides dt b ->
         Ball.color_index b1
         = ((Ball.color_index b + 1) mod Z.of_nat (length COLORS))%Z)
     /\ (~ Ball.collides dt b -> Ball.color_index b1 = Ball.color_index b))
  /\ (exists b',
        run dts b = Ok b'
        /\ Ball.color_index b'
           = ((Ball.color_index b + Z.of_nat (collisions dts b))
              mod Z.of_nat (length COLORS))%Z
        /\ Ball.color_index b'
           = ((Ball.color_index b
               + Z.of_nat (collisions dts b) mod Z.of_nat (length COLORS))
              mod Z.of_nat (length COLORS))%Z)
  /\ Ball.color_index (Nat.iter N Ball.cycle_color b)
     = ((Ball.color_index b + Z.of_nat N mod Z.of_nat (length COLORS))
        mod Z.of_nat (length COLORS))%Z.
Proof.
  intros Hwf. split; [| split].
  - destruct (update_color_index dt b Hwf) as (b1 & Hup & _ & Hci).
    exists b1. split; [exact Hup |]. unfold Ball.collides.
    destruct (Rgt_dec _ _) as [Hc | Hnc]; split; intros H;
      try contradiction; exact Hci.
  - destruct (run_color_index dts b Hwf) as (b' & Hrun & Hci).
    exists b'. split; [exact Hrun |]. split; [exact Hci |].
    rewrite Zplus_mod_idemp_r. exact Hci.
  - rewrite Zplus_mod_idemp_r. apply iter_cycle_color, Hwf.
Qed.

Lemma color_cycling_witness :
  Ball.well_formed center_ball
  /\ Ball.color_index (Nat.iter 8 Ball.cycle_color center_ball)
     = ((Ball.color_index center_ball + Z.of_nat 8 mod Z.of_nat (length COLORS))
        mod Z.of_nat (length COLORS))%Z.
Proof.
  split; [exact center_ball_well_formed |].
  exact (proj2 (proj2
           (color_cycling center_ball [] 0 8 center_ball_well_formed))).
Defined.

(** No frame raises [ZeroDivisionError], whatever the ball and [dt]. *)
Lemma update_never_divides_by_zero (dt : R) (b : Ball.t) :
  Ball.update dt b <> Raise ZeroDivisionError.
Proof.
  unfold Ball.update, Ball.collide.
  destruct (Rgt_dec _ _) as [Hhit | Hno]; [| discriminate].
  unfold Ball.bounce.
  destruct (normal_total (Ball.dx (Ball.moved dt b)) (Ball.dy (Ball.moved dt b))
                         (Ball.dist (Ball.moved dt b))) as [[nx ny] ->].
  cbn [bind]. unfold Ball.color, getitem.
  destruct (orb _ _); [discriminate |].
  destruct (nth_error _ _); discriminate.
Qed.

(** C9.  With [dist == 0] the normal is [(1, 0)], and the computation of the
    normal returns for every [dx], [dy] and [dist]; no frame raises
    [ZeroDivisionError]; and a frame of a well-formed ball that takes the
    collision branch with [dist == 0] returns the ball clamped and reflected
    along [(1, 0)]: at [(cx + max_dist, cy)], with [vx] reversed and scaled
    by [RESTIUTION] and [vy] scaled by [TANGENTIAL_FRICTION]. *)
Theorem degenerate_normal (dt : R) (b : Ball.t) :
  (forall dx dy, Ball.normal dx dy 0 = Ok (1, 0))
  /\ (forall dx dy d, exists n, Ball.normal dx dy d = Ok n)
  /\ Ball.update dt b <> Raise ZeroDivisionError
  /\ (Ball.well_formed b ->
      Ball.collides dt b ->
      Ball.dist (Ball.moved dt b) = 0 ->
      exists b',
        Ball.update dt b = Ok b'
        /\ Ball.x b' = Arena.cx (Ball.arena b) + 1 * Ball.max_dist (Ball.moved dt b)
        /\ Ball.y b' = Arena.cy (Ball.arena b) + 0 * Ball.max_dist (Ball.moved dt b)
        /\ Ball.vx b' = Ball.vx (Ball._reflect_on_circle 1 0 (Ball.moved dt b))
        /\ Ball.vy b' = Ball.vy (Ball._reflect_on_circle 1 0 (Ball.moved dt b))
        /\ Ball.vx b' = - Ball.vx (Ball.moved dt b) * RESTIUTION
        /\ Ball.vy b' = Ball.vy (Ball.moved dt b) * TANGENTIAL_FRICTION).
Proof.
  split; [exact normal_zero |]. split; [exact normal_total |].
  split; [apply update_never_divides_by_zero |].
  intros Hwf Hc Hd.
  destruct (update_frame dt b Hwf) as (b' & Hup & _ & _ & _ & _ & Hhit).
  destruct (Hhit Hc) as (nx & ny & Hn & Hx & Hy & Hvx & Hvy & _).
  rewrite Hd, normal_zero in Hn. injection Hn as <- <-.
  exists b'. split; [exact Hup |]. split; [exact Hx |]. split; [exact Hy |].
  split; [exact Hvx |]. split; [exact Hvy |].
  rewrite Hvx, Hvy. cbn. split; ring.
Qed.

Lemma oversized_ball_centered :
  Ball.dist (Ball.moved 1 oversized_ball) = 0.
Proof.
  destruct (moved_fields 1 oversized_ball) as (_ & _ & Hx & Hy & _ & Har & _).
  unfold Ball.dist, Ball.dx, Ball.dy. rewrite Hx, Hy, Har. simpl.
  unfold GRAVITY, LINEAR_FRICTION.
  match goal with
  | |- hypot ?a ?c = 0 =>
      replace a with 0 by field; replace c with 0 by field
  end.
  apply hypot_0.
Qed.

Lemma oversized_ball_collides : Ball.collides 1 oversized_ball.
Proof.
  unfold Ball.collides. rewrite oversized_ball_centered.
  destruct (moved_fields 1 oversized_ball) as (_ & _ & _ & _ & _ & Har & _).
  unfold Ball.max_dist. rewrite Har, moved_radius.
  unfold Ball.target_max, BALL_MAX_RATIO. simpl.
  destruct (Rlt_dec _ _) as [Hlt | _]; lra.
Qed.

Lemma oversized_ball_well_formed : Ball.well_formed oversized_ball.
Proof. split; simpl; [lra | lia]. Qed.

Lemma degenerate_normal_witness :
  Ball.well_formed oversized_ball
  /\ Ball.collides 1 oversized_ball
  /\ Ball.dist (Ball.moved 1 oversized_ball) = 0
  /\ exists b',
       Ball.update 1 oversized_ball = Ok b'
       /\ Ball.x b'
          = Arena.cx (Ball.arena oversized_ball)
            + 1 * Ball.max_dist (Ball.moved 1 oversized_ball)
       /\ Ball.y b'
          = Arena.cy (Ball.arena oversized_ball)
            + 0 * Ball.max_dist (Ball.moved 1 oversized_ball).
Proof.
  split; [exact oversized_ball_well_formed |].
  split; [exact oversized_ball_collides |].
  split; [exact oversized_ball_centered |].
  destruct (proj2 (proj2 (proj2 (degenerate_normal 1 oversized_ball)))
              oversized_ball_well_formed oversized_ball_collides
              oversized_ball_centered)
    as (b' & Hup & Hx & Hy & _).
  exists b'. split; [exact Hup |]. split; [exact Hx | exact Hy].
Defined.

(** ** A frame with a bounce, on a concrete ball *)

Lemma hypot_0_r (a : R) : 0 <= a -> hypot a 0 = a.
Proof.
  intros Ha. unfold hypot. replace (a * a + 0 * 0) with (a * a) by ring.
  apply sqrt_square, Ha.
Qed.

Lemma outside_ball_well_formed : Ball.well_formed outside_ball.
Proof. split; simpl; [lra | lia]. Qed.

Lemma outside_ball_moved :
  Ball.dx (Ball.moved 0 outside_ball) = 300
  /\ Ball.dy (Ball.moved 0 outside_ball) = 0
  /\ Ball.dist (Ball.moved 0 outside_ball) = 300
  /\ Ball.max_dist (Ball.moved 0 outside_ball) = 235.
Proof.
  destruct (moved_fields 0 outside_ball) as (_ & _ & Hx & Hy & _ & Har & _).
  assert (Hdx : Ball.dx (Ball.moved 0 outside_ball) = 300).
  { unfold Ball.dx. rewrite Hx, Har. simpl. ring. }
  assert (Hdy : Ball.dy (Ball.moved 0 outside_ball) = 0).
  { unfold Ball.dy. rewrite Hy, Har. simpl. ring. }
  split; [exact Hdx |]. split; [exact Hdy |]. split.
  - unfold Ball.dist. rewrite Hdx, Hdy. apply hypot_0_r. lra.
  - unfold Ball.max_dist. rewrite Har, moved_radius.
    unfold Ball.target_max, BALL_MAX_RATIO, GROWTH_PER_SEC. simpl.
    unfold BALL_BASE_RADIUS.
    destruct (Rlt_dec _ _) as [_ | Hn]; [| exfalso; apply Hn; lra].
    rewrite Rmin_right by lra. ring.
Qed.

Lemma outside_ball_collides : Ball.collides 0 outside_ball.
Proof.
  unfold Ball.collides.
  destruct outside_ball_moved as (_ & _ & -> & ->). lra.
Qed.

Example outside_ball_bounce :
  exists b',
    Ball.update 0 outside_ball = Ok b'
    /\ Ball.x b' = 635 /\ Ball.y b' = 300
    /\ Ball.dist b' = 235
    /\ Ball.color_index b' = 1%Z
    /\ collisions [0] outside_ball = 1%nat.
Proof.
  destruct outside_ball_moved as (Hdx & Hdy & Hd & Hmd).
  destruct (update_frame 0 outside_ball outside_ball_well_formed)
    as (b' & Hup & _ & Har & _ & _ & Hhit).
  destruct (Hhit outside_ball_collides) as (nx & ny & Hn & Hx & Hy & _ & _ & Hci).
  rewrite Hdx, Hdy, Hd, normal_nonzero in Hn by lra.
  injection Hn as <- <-. rewrite Hmd in Hx, Hy. simpl in Hx, Hy.
  assert (Hx' : Ball.x b' = 635) by (rewrite Hx; field).
  assert (Hy' : Ball.y b' = 300) by (rewrite Hy; field).
  exists b'. split; [exact Hup |]. split; [exact Hx' |]. split; [exact Hy' |].
  split; [| split; [exact Hci |]].
  - unfold Ball.dist, Ball.dx, Ball.dy. rewrite Hx', Hy', Har. simpl.
    replace (635 - 400) with 235 by ring. replace (300 - 300) with 0 by ring.
    apply hypot_0_r. lra.
  - simpl collisions. rewrite Hup.
    destruct (Rgt_dec _ _) as [_ | Hn]; [reflexivity |].
    exfalso. apply Hn, outside_ball_collides.
Qed.

(** * Further properties *)

(** ** [int] on floats *)

Lemma Int_part_bounds (r : R) : IZR (Int_part r) <= r < IZR (Int_part r) + 1.
Proof. destruct (base_Int_part r). lra. Qed.

Lemma Int_part_le (r1 r2 : R) : r1 <= r2 -> (Int_part r1 <= Int_part r2)%Z.
Proof.
  intros H. pose proof (Int_part_bounds r1). pose proof (Int_part_bounds r2).
  assert (Hlt : IZR (Int_part r1) < IZR (Int_part r2 + 1)).
  { rewrite plus_IZR. lra. }
  apply lt_IZR in Hlt. lia.
Qed.

Lemma Int_part_nonneg (r : R) : 0 <= r -> (0 <= Int_part r)%Z.
Proof.
  intros H. pose proof (Int_part_bounds r).
  assert (Hlt : IZR (-1) < IZR (Int_part r)) by lra.
  apply lt_IZR in Hlt. lia.
Qed.

Lemma Int_part_IZR (z : Z) : Int_part (IZR z) = z.
Proof. symmetry. apply Int_part_spec. lra. Qed.

Lemma py_int_nonneg (r : R) :
  0 <= r -> (0 <= py_int r)%Z /\ IZR (py_int r) <= r < IZR (py_int r) + 1.
Proof.
  intros H. unfold py_int. destruct (Rle_dec 0 r) as [_ | Hn]; [| contradiction].
  split; [apply Int_part_nonneg, H | apply Int_part_bounds].
Qed.

Lemma py_int_nonpos (r : R) : r <= 0 -> (py_int r <= 0)%Z.
Proof.
  intros H. unfold py_int. destruct (Rle_dec 0 r) as [Hr | Hn].
  - replace r with (IZR 0) by lra. rewrite Int_part_IZR. lia.
  - assert (0 <= Int_part (- r))%Z by (apply Int_part_nonneg; lra). lia.
Qed.

Lemma py_int_le (r1 r2 : R) : r1 <= r2 -> (py_int r1 <= py_int r2)%Z.
Proof.
  intros H. unfold py_int.
  destruct (Rle_dec 0 r1) as [H1 | H1]; destruct (Rle_dec 0 r2) as [H2 | H2].
  - apply Int_part_le, H.
  - lra.
  - assert (0 <= Int_part (- r1))%Z by (apply Int_part_nonneg; lra).
    assert (0 <= Int_part r2)%Z by (apply Int_part_nonneg; lra). lia.
  - assert (Int_part (- r2) <= Int_part (- r1))%Z by (apply Int_part_le; lra).
    lia.
Qed.

Lemma py_int_IZR (z : Z) : py_int (IZR z) = z.
Proof.
  unfold py_int. destruct (Rle_dec 0 (IZR z)) as [_ | Hn].
  - apply Int_part_IZR.
  - rewrite <- opp_IZR, Int_part_IZR. lia.
Qed.

(** ** TrailManager: impacts over time *)

Section TrailManagerImpacts.

Import TrailManager.

(** X1.  After [update], whatever [dt] is, every impact that is left has a
    strictly positive life and no impact has appeared; with [dt >= 0], lives
    that were at most [IMPACT_LIFETIME] still are. *)
Theorem update_keeps_impacts_alive (dt : R) (tm : t) :
  Forall (fun i => life i > 0) (impacts (update dt tm))
  /\ (length (impacts (update dt tm)) <= length (impacts tm))%nat
  /\ (0 <= dt ->
      Forall (fun i => life i <= IMPACT_LIFETIME) (impacts tm) ->
      Forall (fun i => life i <= IMPACT_LIFETIME) (impacts (update dt tm))).
Proof.
  rewrite impacts_update. split; [| split].
  - apply Forall_forall. intros i Hi. apply filter_In in Hi as [_ Hlive].
    apply live_spec, Hlive.
  - rewrite <- (length_map (decay dt) (impacts tm)). apply filter_length_le.
  - intros Hdt Hall. apply Forall_forall. intros i Hi.
    apply filter_In in Hi as [Hi _]. apply in_map_iff in Hi as (j & <- & Hj).
    rewrite Forall_forall in Hall. specialize (Hall j Hj).
    destruct j as [[pos t0] col]. unfold life in *. simpl in *. lra.
Qed.

Lemma update_keeps_impacts_alive_witness :
  0 <= 1 / 10
  /\ Forall (fun i => life i <= IMPACT_LIFETIME)
            (impacts (add_impact (0, 0) (255, 0, 0)%Z init))
  /\ Forall (fun i => life i <= IMPACT_LIFETIME)
            (impacts (update (1 / 10) (add_impact (0, 0) (255, 0, 0)%Z init))).
Proof.
  assert (H0 : 0 <= 1 / 10) by lra.
  assert (H1 : Forall (fun i => life i <= IMPACT_LIFETIME)
                      (impacts (add_impact (0, 0) (255, 0, 0)%Z init))).
  { simpl. constructor; [unfold life; simpl; lra | constructor]. }
  split; [exact H0 |]. split; [exact H1 |].
  exact (proj2 (proj2 (update_keeps_impacts_alive (1 / 10)
                         (add_impact (0, 0) (255, 0, 0)%Z init))) H0 H1).
Defined.

(** X2.  An impact added right before an [update], as [Ball.update] does,
    comes out last, with life [IMPACT_LIFETIME - dt], when
    [dt < IMPACT_LIFETIME]; with a longer [dt] it is dropped by that same
    [update] and the impacts are those that [update] gives without it. *)
Theorem add_impact_then_update (dt : R) (pos : sample) (col : rgb) (tm : t) :
  impacts (update dt (add_impact pos col tm))
  = impacts (update dt tm)
    ++ (if Rlt_dec dt IMPACT_LIFETIME
        then [(pos, IMPACT_LIFETIME - dt, col)]
        else []).
Proof.
  rewrite !impacts_update. simpl impacts.
  rewrite map_app, filter_app. f_equal. simpl.
  destruct (Rgt_dec (IMPACT_LIFETIME - dt) 0) as [Hp | Hn];
    destruct (Rlt_dec dt IMPACT_LIFETIME) as [Hl | Hl];
    try reflexivity; lra.
Qed.

End TrailManagerImpacts.

(** ** TrailManager: drawing *)

Section TrailManagerDraw.

Import TrailManager.

Lemma getitem_nth {A : Type} (l : list A) (k : nat) (d : A) :
  (k < length l)%nat -> getitem l (Z.of_nat k) = Ok (nth k l d).
Proof.
  intros Hk. unfold getitem.
  destruct (Z.ltb_spec (Z.of_nat k) 0) as [Hneg | _]; [lia |].
  destruct (Z.ltb_spec (Z.of_nat k) 0) as [Hneg | _]; [lia |].
  destruct (Z.leb_spec (Z.of_nat (length l)) (Z.of_nat k)) as [Hbig | _]; [lia |].
  simpl. rewrite Nat2Z.id.
  rewrite (nth_error_nth' l d Hk). reflexivity.
Qed.

Lemma impact_alpha_value (t0 : R) :
  impact_alpha t0
  = Ok (Z.max 0 (Z.min 255 (py_int (255 * (t0 / IMPACT_LIFETIME))))).
Proof.
  unfold impact_alpha, fdiv.
  destruct (Req_dec_T IMPACT_LIFETIME 0) as [H0 | _]; [| reflexivity].
  unfold IMPACT_LIFETIME in H0. lra.
Qed.

Lemma draw_impacts_value (ball_pos : sample) (l : list impact) :
  draw_impacts ball_pos l = Ok (map (impact_line ball_pos) l).
Proof.
  induction l as [| [[pos t0] col] rest IH]; simpl.
  - reflexivity.
  - rewrite impact_alpha_value, IH. reflexivity.
Qed.

Lemma draw_trail_value (color : rgb) (pts : list sample) (ks : list nat) :
  Forall (fun k => 1 <= k < length pts)%nat ks ->
  draw_trail color pts ks = Ok (map (trail_line color pts) ks).
Proof.
  induction ks as [| k rest IH]; intros Hks; simpl.
  - reflexivity.
  - inversion Hks as [| ? ? Hk Hrest]; subst.
    unfold fdiv. destruct (Req_dec_T (INR (length pts)) 0) as [H0 | _].
    { assert (0 < INR (length pts)) by (apply lt_0_INR; lia). lra. }
    cbn [bind].
    replace (Z.of_nat k - 1)%Z with (Z.of_nat (k - 1)) by lia.
    rewrite (getitem_nth pts (k - 1) (0, 0)) by lia.
    rewrite (getitem_nth pts k (0, 0)) by lia.
    cbn [bind]. rewrite (IH Hrest). reflexivity.
Qed.

Lemma seq_bounds (start len : nat) :
  Forall (fun k => start <= k < start + len)%nat (seq start len).
Proof. apply Forall_forall. intros k Hk. apply in_seq in Hk. lia. Qed.

Lemma draw_value (ball_pos : sample) (color : rgb) (tm : t) :
  draw ball_pos color tm
  = Ok (map (impact_line ball_pos) (impacts tm)
        ++ map (trail_line color (motion_trail tm))
               (seq 1 (length (motion_trail tm) - 1))).
Proof.
  unfold draw. rewrite draw_impacts_value. cbn [bind].
  destruct (Nat.ltb_spec 1 (length (motion_trail tm))) as [Hlong | Hshort].
  - cbv zeta. rewrite draw_trail_value; [reflexivity |].
    eapply Forall_impl; [| apply seq_bounds]. simpl. intros k Hk. lia.
  - replace (length (motion_trail tm) - 1)%nat with 0%nat by lia.
    reflexivity.
Qed.

Lemma trail_alpha_bounds (n k : nat) :
  (1 <= k < n)%nat -> (0 <= trail_alpha n k <= 179)%Z.
Proof.
  intros Hk. unfold trail_alpha.
  assert (Hn : 0 < INR n) by (apply lt_0_INR; lia).
  assert (Hk0 : 0 <= INR k) by apply pos_INR.
  assert (Hkn : INR k < INR n) by (apply lt_INR; lia).
  assert (Hq : 0 <= INR k / INR n < 1).
  { assert (Hmul : INR k / INR n * INR n = INR k) by (field; lra).
    split.
    - unfold Rdiv. apply Rmult_le_pos; [exact Hk0 |].
      left. apply Rinv_0_lt_compat, Hn.
    - nra. }
  destruct (py_int_nonneg (180 * (INR k / INR n))) as [H0 [Hle _]]; [lra |].
  split; [exact H0 |].
  assert (Hlt : IZR (py_int (180 * (INR k / INR n))) < IZR 180) by lra.
  apply lt_IZR in Hlt. lia.
Qed.

Lemma trail_alpha_le (n k1 k2 : nat) :
  (0 < n)%nat -> (k1 <= k2)%nat -> (trail_alpha n k1 <= trail_alpha n k2)%Z.
Proof.
  intros Hn Hk. unfold trail_alpha. apply py_int_le.
  assert (0 < INR n) by (apply lt_0_INR; lia).
  assert (INR k1 <= INR k2) by (apply le_INR; lia).
  apply Rmult_le_compat_l; [lra |].
  unfold Rdiv. apply Rmult_le_compat_r; [| assumption].
  left. apply Rinv_0_lt_compat. assumption.
Qed.

End TrailManagerDraw.

Lemma alphas_trail_lines (color : rgb) (pts : list TrailManager.sample)
    (ks : list nat) :
  alphas (map (trail_line color pts) ks) = map (trail_alpha (length pts)) ks.
Proof.
  induction ks as [| k rest IH]; simpl; [reflexivity | rewrite IH; reflexivity].
Qed.

Lemma sorted_map_seq (g : nat -> Z) (len start : nat) :
  (forall i j, start <= i -> i <= j -> j < start + len -> (g i <= g j)%Z)%nat ->
  StronglySorted Z.le (map g (seq start len)).
Proof.
  revert start. induction len as [| len IH]; intros start Hg; simpl.
  - constructor.
  - constructor.
    + apply IH. intros i j Hi Hij Hj. apply Hg; lia.
    + apply Forall_forall. intros z Hz.
      apply in_map_iff in Hz as (j & <- & Hj). apply in_seq in Hj.
      apply Hg; lia.
Qed.

(** X5.  Every line that [TrailManager.draw] draws has an opacity that
    pygame accepts: between 0 and 255 for an impact, between 0 and 179 for a
    segment of the trail; along the trail the opacity never decreases from
    the oldest segment to the newest. *)
Theorem trail_draw_alphas (ball_pos : TrailManager.sample) (color : rgb)
    (tm : TrailManager.t) :
  exists impact_cmds trail_cmds,
    TrailManager.draw ball_pos color tm = Ok (impact_cmds ++ trail_cmds)
    /\ length impact_cmds = length (TrailManager.impacts tm)
    /\ Forall (alpha_in 0 255) impact_cmds
    /\ Forall (alpha_in 0 179) trail_cmds
    /\ StronglySorted Z.le (alphas trail_cmds).
Proof.
  exists (map (impact_line ball_pos) (TrailManager.impacts tm)).
  exists (map (trail_line color (TrailManager.motion_trail tm))
              (seq 1 (length (TrailManager.motion_trail tm) - 1))).
  split; [apply draw_value |]. split; [apply length_map |].
  split; [| split].
  - apply Forall_forall. intros c Hc.
    apply in_map_iff in Hc as ([[pos t0] col] & <- & _). simpl. lia.
  - apply Forall_forall. intros c Hc.
    apply in_map_iff in Hc as (k & <- & Hk). apply in_seq in Hk.
    simpl. apply trail_alpha_bounds. lia.
  - rewrite alphas_trail_lines. apply sorted_map_seq.
    intros i j Hi Hij Hj. apply trail_alpha_le; lia.
Qed.

(** X6.  The opacity of an impact line follows the life the impact has
    left: 255 for a life of [IMPACT_LIFETIME] or more, 0 for a life of zero
    or less, and never smaller for a longer life. *)
Theorem impact_alpha_fades (t1 t2 : R) :
  (IMPACT_LIFETIME <= t1 -> TrailManager.impact_alpha t1 = Ok 255%Z)
  /\ (t1 <= 0 -> TrailManager.impact_alpha t1 = Ok 0%Z)
  /\ (t1 <= t2 ->
      exists a1 a2,
        TrailManager.impact_alpha t1 = Ok a1
        /\ TrailManager.impact_alpha t2 = Ok a2
        /\ (0 <= a1 <= a2)%Z /\ (a2 <= 255)%Z).
Proof.
  assert (HL : 0 < IMPACT_LIFETIME) by (unfold IMPACT_LIFETIME; lra).
  assert (Hmono : forall a b, a <= b ->
            255 * (a / IMPACT_LIFETIME) <= 255 * (b / IMPACT_LIFETIME)).
  { intros a b Hab. apply Rmult_le_compat_l; [lra |].
    unfold Rdiv. apply Rmult_le_compat_r; [| exact Hab].
    left. apply Rinv_0_lt_compat, HL. }
  assert (Hone : 255 * (IMPACT_LIFETIME / IMPACT_LIFETIME) = IZR 255)
    by (field; lra).
  assert (Hzero : 255 * (0 / IMPACT_LIFETIME) = IZR 0) by (field; lra).
  split; [| split].
  - intros Hfull. rewrite impact_alpha_value. f_equal.
    pose proof (py_int_le _ _ (Hmono _ _ Hfull)) as Hle.
    rewrite Hone, py_int_IZR in Hle. lia.
  - intros Hdead. rewrite impact_alpha_value. f_equal.
    pose proof (py_int_le _ _ (Hmono _ _ Hdead)) as Hle.
    rewrite Hzero, py_int_IZR in Hle. lia.
  - intros Hle. rewrite !impact_alpha_value.
    do 2 eexists. split; [reflexivity |]. split; [reflexivity |].
    pose proof (py_int_le _ _ (Hmono _ _ Hle)). lia.
Qed.

Lemma impact_alpha_fades_witness :
  IMPACT_LIFETIME <= 6 / 10
  /\ TrailManager.impact_alpha (6 / 10) = Ok 255%Z.
Proof.
  assert (H : IMPACT_LIFETIME <= 6 / 10) by (unfold IMPACT_LIFETIME; lra).
  split; [exact H |].
  exact (proj1 (impact_alpha_fades (6 / 10) 1) H).
Defined.

(** ** Ball: the bounce *)

Lemma reflect_sq_le (nx ny : R) (b : Ball.t) :
  nx * nx + ny * ny = 1 ->
  Ball.vx (Ball._reflect_on_circle nx ny b)
  * Ball.vx (Ball._reflect_on_circle nx ny b)
  + Ball.vy (Ball._reflect_on_circle nx ny b)
    * Ball.vy (Ball._reflect_on_circle nx ny b)
  = RESTIUTION * RESTIUTION
    * (normal_part (Ball.vx b) (Ball.vy b) nx ny
       * normal_part (Ball.vx b) (Ball.vy b) nx ny)
    + TANGENTIAL_FRICTION * TANGENTIAL_FRICTION
      * ((Ball.vx b * ny - Ball.vy b * nx) * (Ball.vx b * ny - Ball.vy b * nx))
  /\ Ball.vx b * Ball.vx b + Ball.vy b * Ball.vy b
     = normal_part (Ball.vx b) (Ball.vy b) nx ny
       * normal_part (Ball.vx b) (Ball.vy b) nx ny
       + (Ball.vx b * ny - Ball.vy b * nx) * (Ball.vx b * ny - Ball.vy b * nx).
Proof.
  intros Hunit.
  set (vx := Ball.vx b). set (vy := Ball.vy b).
  set (vn := normal_part vx vy nx ny).
  set (c := vx * ny - vy * nx).
  assert (Hlag : vx * vx + vy * vy = vn * vn + c * c).
  { transitivity ((vx * vx + vy * vy) * (nx * nx + ny * ny));
      [rewrite Hunit; ring | unfold vn, c, normal_part; ring]. }
  split; [| exact Hlag].
  transitivity
    (TANGENTIAL_FRICTION * TANGENTIAL_FRICTION * (vx * vx + vy * vy)
     - 2 * TANGENTIAL_FRICTION * (RESTIUTION + TANGENTIAL_FRICTION) * (vn * vn)
     + (RESTIUTION + TANGENTIAL_FRICTION) * (RESTIUTION + TANGENTIAL_FRICTION)
       * (vn * vn) * (nx * nx + ny * ny)).
  - unfold Ball._reflect_on_circle. cbn [Ball.vx Ball.vy Ball.set_vel].
    fold vx vy. unfold vn, normal_part. ring.
  - rewrite Hunit, Hlag. ring.
Qed.

Lemma reflect_speed_le (nx ny : R) (b : Ball.t) :
  nx * nx + ny * ny = 1 ->
  speed (Ball._reflect_on_circle nx ny b) <= speed b.
Proof.
  intros Hunit. destruct (reflect_sq_le nx ny b Hunit) as [Hnew Hold].
  unfold speed, hypot. apply sqrt_le_1_alt. rewrite Hnew, Hold.
  unfold RESTIUTION, TANGENTIAL_FRICTION.
  pose proof (Rle_0_sqr (normal_part (Ball.vx b) (Ball.vy b) nx ny)) as H1.
  pose proof (Rle_0_sqr (Ball.vx b * ny - Ball.vy b * nx)) as H2.
  unfold Rsqr in H1, H2. lra.
Qed.

Lemma normal_unit (dx dy : R) :
  exists nx ny,
    Ball.normal dx dy (hypot dx dy) = Ok (nx, ny) /\ nx * nx + ny * ny = 1.
Proof.
  destruct (Req_dec_T (hypot dx dy) 0) as [H0 | Hne].
  - exists 1, 0. rewrite H0. split; [apply normal_zero | ring].
  - exists (dx / hypot dx dy), (dy / hypot dx dy).
    split; [apply normal_nonzero, Hne |].
    apply unit_normal_sq, (hypot_unit dx dy (hypot dx dy) eq_refl Hne).
Qed.

(** X7.  The normal that [update] computes in its collision branch and
    hands to [_reflect_on_circle] is always a unit vector, as the docstring
    of [_reflect_on_circle] asks: [(dx, dy) / dist] has length 1 when
    [dist != 0], and the fallback is [(1, 0)]. *)
Theorem normal_is_normalized (dx dy : R) :
  exists nx ny,
    Ball.normal dx dy (hypot dx dy) = Ok (nx, ny)
    /\ nx * nx + ny * ny = 1
    /\ hypot nx ny = 1
    /\ (hypot dx dy <> 0 -> nx * hypot dx dy = dx /\ ny * hypot dx dy = dy).
Proof.
  destruct (normal_unit dx dy) as (nx & ny & Hn & Hunit).
  exists nx, ny. split; [exact Hn |]. split; [exact Hunit |]. split.
  - unfold hypot. rewrite Hunit. apply sqrt_1.
  - intros Hne. rewrite normal_nonzero in Hn by exact Hne.
    injection Hn as <- <-. split; field; exact Hne.
Qed.

Lemma normal_is_normalized_witness :
  hypot 300 0 <> 0
  /\ exists nx ny,
       Ball.normal 300 0 (hypot 300 0) = Ok (nx, ny)
       /\ nx * hypot 300 0 = 300 /\ ny * hypot 300 0 = 0.
Proof.
  assert (H : hypot 300 0 <> 0) by (rewrite hypot_0_r; lra).
  split; [exact H |].
  destruct (normal_is_normalized 300 0) as (nx & ny & Hn & _ & _ & Hback).
  exists nx, ny. split; [exact Hn | exact (Hback H)].
Defined.

(** X8.  A reflection on a unit normal never speeds the ball up: the square
    of the new speed is [RESTIUTION^2] times the square of the normal
    component plus [TANGENTIAL_FRICTION^2] times the square of the
    tangential one, and the new speed is strictly smaller than the old one
    whenever the ball was moving. *)
Theorem reflection_loses_speed (nx ny : R) (b : Ball.t) :
  nx * nx + ny * ny = 1 ->
  let vn := normal_part (Ball.vx b) (Ball.vy b) nx ny in
  let vt := Ball.vx b * ny - Ball.vy b * nx in
  speed (Ball._reflect_on_circle nx ny b)
  * speed (Ball._reflect_on_circle nx ny b)
  = RESTIUTION * RESTIUTION * (vn * vn)
    + TANGENTIAL_FRICTION * TANGENTIAL_FRICTION * (vt * vt)
  /\ speed b * speed b = vn * vn + vt * vt
  /\ speed (Ball._reflect_on_circle nx ny b) <= speed b
  /\ (speed b <> 0 -> speed (Ball._reflect_on_circle nx ny b) < speed b).
Proof.
  intros Hunit vn vt.
  destruct (reflect_sq_le nx ny b Hunit) as [Hnew Hold].
  fold vn vt in Hnew, Hold.
  assert (Hs' : speed (Ball._reflect_on_circle nx ny b)
                * speed (Ball._reflect_on_circle nx ny b)
                = RESTIUTION * RESTIUTION * (vn * vn)
                  + TANGENTIAL_FRICTION * TANGENTIAL_FRICTION * (vt * vt)).
  { unfold speed. rewrite hypot_sq. exact Hnew. }
  assert (Hs : speed b * speed b = vn * vn + vt * vt).
  { unfold speed. rewrite hypot_sq. exact Hold. }
  split; [exact Hs' |]. split; [exact Hs |].
  split; [apply reflect_speed_le, Hunit |].
  intros Hmoving.
  pose proof (hypot_nonneg (Ball.vx b) (Ball.vy b)) as H0.
  pose proof (hypot_nonneg (Ball.vx (Ball._reflect_on_circle nx ny b))
                           (Ball.vy (Ball._reflect_on_circle nx ny b))) as H0'.
  fold (speed b) in H0. fold (speed (Ball._reflect_on_circle nx ny b)) in H0'.
  pose proof (Rle_0_sqr vn) as H1. pose proof (Rle_0_sqr vt) as H2.
  unfold Rsqr in H1, H2.
  unfold RESTIUTION, TANGENTIAL_FRICTION in Hs'.
  assert (Hpos : 0 < speed b) by lra.
  nra.
Qed.

Lemma reflection_loses_speed_witness :
  1 * 1 + 0 * 0 = 1
  /\ speed (Ball._reflect_on_circle 1 0 (Ball.set_vel 3 4 center_ball))
     <= speed (Ball.set_vel 3 4 center_ball).
Proof.
  assert (H : 1 * 1 + 0 * 0 = 1) by ring.
  split; [exact H |].
  exact (proj1 (proj2 (proj2
           (reflection_loses_speed 1 0 (Ball.set_vel 3 4 center_ball) H)))).
Defined.

(** ** Ball: one frame *)

Lemma getitem_cases {A : Type} (l : list A) (i : Z) :
  ((- Z.of_nat (length l) <= i < Z.of_nat (length l))%Z ->
   exists a, getitem l i = Ok a)
  /\ (~ (- Z.of_nat (length l) <= i < Z.of_nat (length l))%Z ->
      getitem l i = Raise IndexError).
Proof.
  unfold getitem. split; intros Hi.
  - destruct (Z.ltb_spec i 0) as [Hneg | Hpos];
      match goal with
      | |- context [orb (?j <? 0)%Z (?n <=? ?j)%Z] =>
          destruct (Z.ltb_spec j 0) as [H1 | H1]; [lia |];
          destruct (Z.leb_spec n j) as [H2 | H2]; [lia |];
          simpl; destruct (nth_error l (Z.to_nat j)) as [a |] eqn:Hnth;
          [exists a; reflexivity | apply nth_error_None in Hnth; lia]
      end.
  - destruct (Z.ltb_spec i 0) as [Hneg | Hpos];
      match goal with
      | |- context [orb (?j <? 0)%Z (?n <=? ?j)%Z] =>
          destruct (Z.ltb_spec j 0) as [H1 | H1]; [reflexivity |];
          destruct (Z.leb_spec n j) as [H2 | H2]; [reflexivity | lia]
      end.
Qed.

Lemma deque_append_last {A : Type} (n : nat) (d : list A) (v dflt : A) :
  (0 < n)%nat -> last (deque_append n d v) dflt = v.
Proof.
  intros Hn. unfold deque_append.
  destruct (Nat.ltb_spec n (length (d ++ [v]))) as [Hfull | _].
  - destruct d as [| a d]; simpl in *; [lia | apply last_last].
  - apply last_last.
Qed.

Lemma length_deque_append {A : Type} (n : nat) (d : list A) (v : A) :
  (length d <= n)%nat ->
  length (deque_append n d v) = Nat.min (S (length d)) n.
Proof.
  intros Hd. rewrite deque_append_lastn, length_lastn, length_app by exact Hd.
  cbn [length]. lia.
Qed.

(** The trails after a frame: the impact of the bounce, if any, then the
    position, then the decay. *)
Lemma update_trails (dt : R) (b : Ball.t) :
  Ball.well_formed b ->
  exists b' col,
    Ball.update dt b = Ok b'
    /\ Ball.color b = Ok col
    /\ Ball.trails b'
       = TrailManager.update dt
           (TrailManager.push_position (Ball.x b') (Ball.y b')
              (if Rgt_dec (Ball.dist (Ball.moved dt b))
                          (Ball.max_dist (Ball.moved dt b))
               then TrailManager.add_impact (Ball.x b', Ball.y b') col
                                            (Ball.trails b)
               else Ball.trails b)).
Proof.
  intros [_ Hci].
  destruct (moved_fields dt b) as (_ & _ & _ & _ & Hmci & _ & Hmtr).
  destruct (getitem_in_range COLORS (Ball.color_index b) Hci) as [col Hcol].
  destruct (Rgt_dec _ _) as [Hhit | Hno].
  - assert (Hci' : (0 <= Ball.color_index (Ball.moved dt b)
                    < Z.of_nat (length COLORS))%Z) by (rewrite Hmci; exact Hci).
    destruct (bounce_result (Ball.moved dt b) Hci')
      as (nx & ny & col' & _ & Hcol' & Hb).
    rewrite Hmci, Hcol in Hcol'. injection Hcol' as <-.
    rewrite update_collision, Hb by exact Hhit. cbn [bind].
    eexists. exists col. split; [reflexivity |]. split; [exact Hcol |].
    cbn. rewrite Hmtr. reflexivity.
  - rewrite update_no_collision by exact Hno.
    eexists. exists col. split; [reflexivity |]. split; [exact Hcol |].
    cbn. rewrite Hmtr. reflexivity.
Qed.

(** X9.  A frame never leaves a well-formed ball faster than gravity and
    air friction have made it: the speed after [update] is at most
    [LINEAR_FRICTION] times the length of [(vx, vy + GRAVITY * dt)], so a
    bounce only takes speed away. *)
Theorem update_speed_bound (dt : R) (b : Ball.t) :
  Ball.well_formed b ->
  exists b',
    Ball.update dt b = Ok b'
    /\ speed (Ball.moved dt b)
       = LINEAR_FRICTION * hypot (Ball.vx b) (Ball.vy b + GRAVITY * dt)
    /\ speed b' <= speed (Ball.moved dt b)
    /\ (~ Ball.collides dt b -> speed b' = speed (Ball.moved dt b)).
Proof.
  intros Hwf.
  destruct (update_frame dt b Hwf) as (b' & Hup & _ & _ & _ & Hno & Hhit).
  destruct (moved_fields dt b) as (Hvx & Hvy & _).
  exists b'. split; [exact Hup |]. split.
  { unfold speed. rewrite Hvx, Hvy, hypot_scale, Rabs_pos_eq.
    - ring.
    - unfold LINEAR_FRICTION. lra. }
  assert (Hsame : ~ Ball.collides dt b -> speed b' = speed (Ball.moved dt b)).
  { intros Hnc. rewrite (Hno Hnc). reflexivity. }
  split; [| exact Hsame].
  destruct (Rgt_dec (Ball.dist (Ball.moved dt b)) (Ball.max_dist (Ball.moved dt b)))
    as [Hc | Hnc].
  - destruct (Hhit Hc) as (nx & ny & Hn & _ & _ & Hvx' & Hvy' & _).
    destruct (normal_unit (Ball.dx (Ball.moved dt b)) (Ball.dy (Ball.moved dt b)))
      as (nx' & ny' & Hn' & Hunit).
    change (hypot (Ball.dx (Ball.moved dt b)) (Ball.dy (Ball.moved dt b)))
      with (Ball.dist (Ball.moved dt b)) in Hn'.
    rewrite Hn in Hn'. injection Hn' as <- <-.
    unfold speed at 1. rewrite Hvx', Hvy'.
    apply (reflect_speed_le nx ny (Ball.moved dt b) Hunit).
  - right. apply Hsame, Hnc.
Qed.

(** X10.  The only way a frame can fail: [update] raises exactly when it
    takes the collision branch with a colour index that is not an index of
    [COLORS] (not in [-len(COLORS) .. len(COLORS) - 1]), and what it raises
    then is [IndexError]; in every other case it returns a ball. *)
Theorem update_failure (dt : R) (b : Ball.t) :
  let valid :=
    (- Z.of_nat (length COLORS) <= Ball.color_index b
     < Z.of_nat (length COLORS))%Z in
  (Ball.update dt b = Raise IndexError <-> Ball.collides dt b /\ ~ valid)
  /\ (forall e, Ball.update dt b = Raise e -> e = IndexError)
  /\ (~ Ball.collides dt b \/ valid -> exists b', Ball.update dt b = Ok b').
Proof.
  intros valid.
  destruct (moved_fields dt b) as (_ & _ & _ & _ & Hmci & _).
  destruct (getitem_cases COLORS (Ball.color_index b)) as [Hin Hout].
  fold valid in Hin, Hout.
  assert (Hbounce : Ball.collides dt b ->
            (valid -> exists b', Ball.update dt b = Ok b')
            /\ (~ valid -> Ball.update dt b = Raise IndexError)).
  { intros Hc. rewrite update_collision by exact Hc. unfold Ball.bounce.
    destruct (normal_total (Ball.dx (Ball.moved dt b)) (Ball.dy (Ball.moved dt b))
                           (Ball.dist (Ball.moved dt b))) as [[nx ny] ->].
    cbn [bind]. unfold Ball.color.
    cbn [Ball.color_index Ball._reflect_on_circle Ball.set_vel Ball.set_pos].
    rewrite Hmci. split; intros Hv.
    - destruct (Hin Hv) as [col ->]. cbn [bind]. eexists. reflexivity.
    - rewrite (Hout Hv). reflexivity. }
  assert (Hdec : valid \/ ~ valid) by (unfold valid; lia).
  destruct (Rgt_dec (Ball.dist (Ball.moved dt b)) (Ball.max_dist (Ball.moved dt b)))
    as [Hc | Hnc].
  - destruct (Hbounce Hc) as [Hok Hbad]. split; [| split].
    + split.
      * intros Hraise. split; [exact Hc |]. intros Hv.
        destruct (Hok Hv) as [b' Hb']. congruence.
      * intros [_ Hv]. apply Hbad, Hv.
    + intros e Hraise. destruct Hdec as [Hv | Hv].
      * destruct (Hok Hv) as [b' Hb']. congruence.
      * rewrite (Hbad Hv) in Hraise. congruence.
    + intros [Hno | Hv]; [contradiction | apply Hok, Hv].
  - pose proof (update_no_collision dt b Hnc) as Hup. split; [| split].
    + split; [intros Hraise; congruence | intros [Hc _]; contradiction].
    + intros e Hraise. congruence.
    + intros _. eexists. exact Hup.
Qed.

Lemma update_failure_witness :
  (~ Ball.collides (1 / 100) center_ball
   \/ (- Z.of_nat (length COLORS) <= Ball.color_index center_ball
       < Z.of_nat (length COLORS))%Z)
  /\ exists b', Ball.update (1 / 100) center_ball = Ok b'.
Proof.
  assert (H : ~ Ball.collides (1 / 100) center_ball
              \/ (- Z.of_nat (length COLORS) <= Ball.color_index center_ball
                  < Z.of_nat (length COLORS))%Z)
    by (right; simpl; lia).
  split; [exact H |].
  exact (proj2 (proj2 (update_failure (1 / 100) center_ball)) H).
Defined.

(** X11.  After every frame of a well-formed ball the newest sample of the
    motion trail is the position of the ball, the clamped one when the ball
    has bounced; and the trail has grown by one sample, up to [TRAIL_LEN]. *)
Theorem trail_follows_ball (dt : R) (b : Ball.t) :
  Ball.well_formed b ->
  exists b',
    Ball.update dt b = Ok b'
    /\ last (TrailManager.motion_trail (Ball.trails b')) (0, 0)
       = (Ball.x b', Ball.y b')
    /\ ((length (TrailManager.motion_trail (Ball.trails b)) <= TRAIL_LEN)%nat ->
        length (TrailManager.motion_trail (Ball.trails b'))
        = Nat.min (S (length (TrailManager.motion_trail (Ball.trails b))))
                  TRAIL_LEN).
Proof.
  intros Hwf.
  destruct (update_trails dt b Hwf) as (b' & col & Hup & _ & Htr).
  exists b'. split; [exact Hup |].
  assert (Hmt : TrailManager.motion_trail (Ball.trails b')
                = deque_append TRAIL_LEN
                    (TrailManager.motion_trail (Ball.trails b))
                    (Ball.x b', Ball.y b')).
  { rewrite Htr. destruct (Rgt_dec _ _); reflexivity. }
  rewrite Hmt. split.
  - apply deque_append_last, TRAIL_LEN_pos.
  - intros Hcap. apply length_deque_append, Hcap.
Qed.

Lemma trail_follows_ball_witness :
  Ball.well_formed center_ball
  /\ (length (TrailManager.motion_trail (Ball.trails center_ball))
      <= TRAIL_LEN)%nat
  /\ exists b',
       Ball.update (1 / 100) center_ball = Ok b'
       /\ last (TrailManager.motion_trail (Ball.trails b')) (0, 0)
          = (Ball.x b', Ball.y b')
       /\ length (TrailManager.motion_trail (Ball.trails b'))
          = Nat.min
              (S (length (TrailManager.motion_trail (Ball.trails center_ball))))
              TRAIL_LEN.
Proof.
  assert (H : (length (TrailManager.motion_trail (Ball.trails center_ball))
               <= TRAIL_LEN)%nat) by (simpl; lia).
  split; [exact center_ball_well_formed |]. split; [exact H |].
  destruct (trail_follows_ball (1 / 100) center_ball center_ball_well_formed)
    as (b' & Hup & Hlast & Hlen).
  exists b'. split; [exact Hup |]. split; [exact Hlast | exact (Hlen H)].
Defined.

(** X12.  A frame that bounces records one impact, at the clamped position
    of the ball and in the colour the ball had before the bounce; the decay
    of the same frame has already taken [dt] off its life, and has dropped
    it when [dt >= IMPACT_LIFETIME].  A frame that does not bounce records
    none.  In both cases the older impacts decay by [dt]. *)
Theorem bounce_records_impact (dt : R) (b : Ball.t) :
  Ball.well_formed b ->
  exists b' col,
    Ball.update dt b = Ok b'
    /\ Ball.color b = Ok col
    /\ (Ball.collides dt b ->
        TrailManager.impacts (Ball.trails b')
        = TrailManager.impacts (TrailManager.update dt (Ball.trails b))
          ++ (if Rlt_dec dt IMPACT_LIFETIME
              then [((Ball.x b', Ball.y b'), IMPACT_LIFETIME - dt, col)]
              else []))
    /\ (~ Ball.collides dt b ->
        TrailManager.impacts (Ball.trails b')
        = TrailManager.impacts (TrailManager.update dt (Ball.trails b))).
Proof.
  intros Hwf.
  destruct (update_trails dt b Hwf) as (b' & col & Hup & Hcol & Htr).
  exists b', col. split; [exact Hup |]. split; [exact Hcol |].
  unfold Ball.collides. rewrite Htr.
  destruct (Rgt_dec _ _) as [Hc | Hnc]; split; intros H; try contradiction.
  - rewrite !impacts_update.
    cbn [TrailManager.impacts TrailManager.push_position
         TrailManager.add_impact].
    rewrite map_app, filter_app. f_equal. simpl.
    destruct (Rgt_dec (IMPACT_LIFETIME - dt) 0) as [Hp | Hn];
      destruct (Rlt_dec dt IMPACT_LIFETIME) as [Hl | Hl];
      try reflexivity; lra.
  - reflexivity.
Qed.

Lemma bounce_records_impact_witness :
  Ball.well_formed outside_ball
  /\ Ball.collides 0 outside_ball
  /\ exists b' col,
       Ball.update 0 outside_ball = Ok b'
       /\ Ball.color outside_ball = Ok col
       /\ TrailManager.impacts (Ball.trails b')
          = TrailManager.impacts (TrailManager.update 0 (Ball.trails outside_ball))
            ++ (if Rlt_dec 0 IMPACT_LIFETIME
                then [((Ball.x b', Ball.y b'), IMPACT_LIFETIME - 0, col)]
                else []).
Proof.
  split; [exact outside_ball_well_formed |].
  split; [exact outside_ball_collides |].
  destruct (bounce_records_impact 0 outside_ball outside_ball_well_formed)
    as (b' & col & Hup & Hcol & Hhit & _).
  exists b', col. split; [exact Hup |]. split; [exact Hcol |].
  exact (Hhit outside_ball_collides).
Defined.

(** X13.  Every bounce changes the colour of a well-formed ball: the colour
    after [cycle_color] differs from the colour before it, and
    [len(COLORS)] calls of [cycle_color] bring the first colour back. *)
Theorem bounce_changes_color (b : Ball.t) :
  Ball.well_formed b ->
  exists before after,
    Ball.color b = Ok before
    /\ Ball.color (Ball.cycle_color b) = Ok after
    /\ before <> after
    /\ Ball.color (Nat.iter (length COLORS) Ball.cycle_color b) = Ok before.
Proof.
  intros [_ Hci].
  assert (Hback : Ball.color (Nat.iter (length COLORS) Ball.cycle_color b)
                  = Ball.color b).
  { unfold Ball.color. rewrite iter_cycle_color by exact Hci.
    rewrite Z.add_mod, Z_mod_same_full, Z.add_0_r, Z.mod_mod by (simpl; lia).
    rewrite Z.mod_small by exact Hci. reflexivity. }
  rewrite Hback. unfold Ball.color. rewrite color_index_cycle_color.
  simpl in Hci.
  assert (Hcases : Ball.color_index b = 0%Z \/ Ball.color_index b = 1%Z
                   \/ Ball.color_index b = 2%Z \/ Ball.color_index b = 3%Z
                   \/ Ball.color_index b = 4%Z \/ Ball.color_index b = 5%Z)
    by lia.
  destruct Hcases as [-> | [-> | [-> | [-> | [-> | ->]]]]];
    do 2 eexists; (split; [reflexivity |]); (split; [reflexivity |]);
    (split; [discriminate | reflexivity]).
Qed.

Lemma bounce_changes_color_witness :
  Ball.well_formed center_ball
  /\ exists before after,
       Ball.color center_ball = Ok before
       /\ Ball.color (Ball.cycle_color center_ball) = Ok after
       /\ before <> after.
Proof.
  split; [exact center_ball_well_formed |].
  destruct (bounce_changes_color center_ball center_ball_well_formed)
    as (c1 & c2 & H1 & H2 & Hne & _).
  exists c1, c2. split; [exact H1 |]. split; [exact H2 | exact Hne].
Defined.

(** ** Ball: construction and runs *)

Lemma hypot_0_abs (a : R) : hypot 0 a = Rabs a.
Proof.
  unfold hypot. replace (0 * 0 + a * a) with (Rsqr a) by (unfold Rsqr; ring).
  apply sqrt_Rsqr_abs.
Qed.

Lemma init_dist (a : Arena.t) (ang : R) :
  Ball.dist (Ball.init a ang) = Rabs (Arena.radius a) / 2.
Proof.
  unfold Ball.dist, Ball.dx, Ball.dy. simpl.
  replace (Arena.cx a - Arena.cx a) with 0 by ring.
  replace (Arena.cy a - Arena.radius a * (5 / 10) - Arena.cy a)
    with (- (Arena.radius a / 2)) by field.
  rewrite hypot_0_abs, Rabs_Ropp. unfold Rdiv.
  rewrite Rabs_mult, (Rabs_pos_eq (/ 2)) by lra. reflexivity.
Qed.

(** X14.  A new ball sits half an arena radius above the centre, so it
    starts inside the arena exactly when the radius of the arena is at least
    twice [BALL_BASE_RADIUS]; it is then well formed as well, and below the
    cap on its radius. *)
Theorem init_contained (a : Arena.t) (ang : R) :
  Ball.dist (Ball.init a ang) = Rabs (Arena.radius a) / 2
  /\ (Ball.contained (Ball.init a ang)
      <-> 2 * BALL_BASE_RADIUS <= Arena.radius a)
  /\ (2 * BALL_BASE_RADIUS <= Arena.radius a ->
      Ball.well_formed (Ball.init a ang)
      /\ Ball.radius (Ball.init a ang) < Ball.target_max (Ball.init a ang)).
Proof.
  split; [apply init_dist |]. split.
  - unfold Ball.contained. rewrite init_dist.
    unfold Ball.max_dist. simpl. unfold BALL_BASE_RADIUS.
    unfold Rabs. destruct (Rcase_abs (Arena.radius a)); split; intros H; lra.
  - intros Hbig. unfold BALL_BASE_RADIUS in Hbig. split.
    + apply init_well_formed. lra.
    + unfold Ball.target_max, BALL_MAX_RATIO. simpl.
      unfold BALL_BASE_RADIUS. lra.
Qed.

Lemma init_contained_witness :
  2 * BALL_BASE_RADIUS <= Arena.radius app_arena
  /\ Ball.well_formed (Ball.init app_arena 0)
  /\ Ball.radius (Ball.init app_arena 0)
     < Ball.target_max (Ball.init app_arena 0).
Proof.
  assert (H : 2 * BALL_BASE_RADIUS <= Arena.radius app_arena)
    by (unfold BALL_BASE_RADIUS; simpl; lra).
  split; [exact H |].
  exact (proj2 (proj2 (init_contained app_arena 0)) H).
Defined.

(** ** Drawing a frame *)

Lemma ball_draw_value (b : Ball.t) :
  Ball.well_formed b ->
  exists col,
    Ball.color b = Ok col
    /\ Ball.draw b
       = Ok ((map (impact_line (Ball.x b, Ball.y b))
                  (TrailManager.impacts (Ball.trails b))
              ++ map (trail_line col (TrailManager.motion_trail (Ball.trails b)))
                     (seq 1 (length (TrailManager.motion_trail (Ball.trails b))
                             - 1)))
             ++ [DrawCircle col (py_int (Ball.x b), py_int (Ball.y b))
                            (py_int (Ball.radius b)) 0]).
Proof.
  intros [_ Hci].
  destruct (getitem_in_range COLORS (Ball.color_index b) Hci) as [col Hcol].
  exists col. split; [exact Hcol |].
  unfold Ball.draw. unfold Ball.color in *. rewrite Hcol. cbn [bind].
  rewrite draw_value. reflexivity.
Qed.

(** X16.  The drawing of a frame, for a well-formed ball: [_draw] never
    raises and issues, in this order, the fill of the background, the
    outline of the arena, one line per impact, one line per pair of
    consecutive trail points, the disc of the ball in its current colour,
    and the flip; every line has an opacity between 0 and 255.  With a
    colour index outside of [COLORS], [Ball.draw] raises [IndexError]. *)
Theorem frame_drawing (app : App.t) :
  let b := App.ball app in
  (Ball.well_formed b ->
   exists col lines,
     Ball.color b = Ok col
     /\ TrailManager.draw (Ball.x b, Ball.y b) col (Ball.trails b) = Ok lines
     /\ App._draw app
        = Ok (Fill BG_COLOR
              :: DrawCircle ARENA_COLOR
                   (py_int (Arena.cx (App.arena app)),
                    py_int (Arena.cy (App.arena app)))
                   (py_int (Arena.radius (App.arena app))) 2
              :: lines
              ++ [DrawCircle col (py_int (Ball.x b), py_int (Ball.y b))
                             (py_int (Ball.radius b)) 0;
                  Flip])
     /\ Forall (alpha_in 0 255) lines
     /\ length lines
        = (length (TrailManager.impacts (Ball.trails b))
           + (length (TrailManager.motion_trail (Ball.trails b)) - 1))%nat)
  /\ (~ (- Z.of_nat (length COLORS) <= Ball.color_index b
         < Z.of_nat (length COLORS))%Z ->
      Ball.draw b = Raise IndexError /\ App._draw app = Raise IndexError).
Proof.
  intros b. split.
  - intros Hwf. destruct (ball_draw_value b Hwf) as (col & Hcol & Hdraw).
    exists col. eexists. split; [exact Hcol |].
    split; [apply draw_value |]. split; [| split].
    + unfold App._draw. fold b. rewrite Hdraw. cbn [bind].
      unfold Arena.draw. simpl. rewrite <- app_assoc. reflexivity.
    + apply Forall_app. split; apply Forall_forall; intros c Hc.
      * apply in_map_iff in Hc as ([[pos t0] col0] & <- & _). simpl. lia.
      * apply in_map_iff in Hc as (k & <- & Hk). apply in_seq in Hk.
        simpl. pose proof (trail_alpha_bounds
                             (length (TrailManager.motion_trail (Ball.trails b))) k).
        lia.
    + rewrite length_app, !length_map, length_seq. reflexivity.
  - intros Hbad.
    destruct (getitem_cases COLORS (Ball.color_index b)) as [_ Hout].
    assert (Hd : Ball.draw b = Raise IndexError).
    { unfold Ball.draw, Ball.color. rewrite (Hout Hbad). reflexivity. }
    split; [exact Hd |]. unfold App._draw. fold b. rewrite Hd. reflexivity.
Qed.

Lemma frame_drawing_witness :
  Ball.well_formed (App.ball (App.init 0))
  /\ exists col lines,
       Ball.color (App.ball (App.init 0)) = Ok col
       /\ App._draw (App.init 0)
          = Ok (Fill BG_COLOR
                :: DrawCircle ARENA_COLOR
                     (py_int (Arena.cx (App.arena (App.init 0))),
                      py_int (Arena.cy (App.arena (App.init 0))))
                     (py_int (Arena.radius (App.arena (App.init 0)))) 2
                :: lines
                ++ [DrawCircle col
                      (py_int (Ball.x (App.ball (App.init 0))),
                       py_int (Ball.y (App.ball (App.init 0))))
                      (py_int (Ball.radius (App.ball (App.init 0)))) 0;
                    Flip]).
Proof.
  assert (H : Ball.well_formed (App.ball (App.init 0))).
  { apply init_well_formed. simpl. lra. }
  split; [exact H |].
  destruct (proj1 (frame_drawing (App.init 0)) H)
    as (col & lines & Hcol & _ & Hdraw & _).
  exists col, lines. split; [exact Hcol | exact Hdraw].
Defined.

(** ** App: the loop *)

Lemma handle_events_fields (events : list App.event) (app : App.t) :
  App.running (App._handle_events events app)
  = andb (App.running app) (negb (quits events))
  /\ App.ball (App._handle_events events app) = App.ball app
  /\ App.arena (App._handle_events events app) = App.arena app.
Proof.
  unfold App._handle_events. revert app.
  induction events as [| ev rest IH]; intros app; simpl.
  - rewrite Bool.andb_true_r. repeat split.
  - destruct ev as [| key |]; simpl.
    + destruct (IH (App.set_running false app)) as (-> & -> & ->).
      simpl. rewrite Bool.andb_false_r. repeat split.
    + destruct (key =? App.K_ESCAPE)%Z; simpl.
      * destruct (IH (App.set_running false app)) as (-> & -> & ->).
        simpl. rewrite Bool.andb_false_r. repeat split.
      * apply IH.
    + apply IH.
Qed.

Lemma app_update_fields (dt : R) (app app' : App.t) :
  App._update dt app = Ok app' ->
  App.running app' = App.running app
  /\ App.arena app' = App.arena app
  /\ Ball.update dt (App.ball app) = Ok (App.ball app').
Proof.
  unfold App._update.
  destruct (Ball.update dt (App.ball app)) as [b |]; cbn [bind]; [| discriminate].
  intros H. injection H as <-. repeat split.
Qed.

Lemma run_stopped (frames : list (Z * list App.event)) (app : App.t) :
  App.running app = false -> App.run frames app = Ok (app, []).
Proof.
  intros Hstop. destruct frames as [| [ms events] rest]; simpl.
  - reflexivity.
  - rewrite Hstop. reflexivity.
Qed.

(** One iteration of the loop, from a running application whose ball is
    well formed and inside the arena. *)
Lemma app_frame (ms : Z) (events : list App.event) (app : App.t) :
  Ball.well_formed (App.ball app) ->
  exists app' cmds,
    App._update (IZR ms / 1000) (App._handle_events events app) = Ok app'
    /\ App._draw app' = Ok cmds
    /\ App.running app' = andb (App.running app) (negb (quits events))
    /\ App.arena app' = App.arena app
    /\ Ball.update (IZR ms / 1000) (App.ball app) = Ok (App.ball app')
    /\ Ball.well_formed (App.ball app').
Proof.
  intros Hwf.
  destruct (handle_events_fields events app) as (Hrun & Hball & Har).
  destruct (update_frame (IZR ms / 1000) (App.ball app) Hwf)
    as (b' & Hup & Hwf' & _).
  exists (App.mk (App.arena app) b'
                 (andb (App.running app) (negb (quits events)))).
  assert (Hwf'' : Ball.well_formed
                    (App.ball (App.mk (App.arena app) b'
                       (andb (App.running app) (negb (quits events))))))
    by exact Hwf'.
  destruct (ball_draw_value _ Hwf'') as (col & _ & Hdraw).
  eexists. split.
  { unfold App._update. rewrite Hball, Hup, Har, Hrun. reflexivity. }
  split.
  { unfold App._draw. rewrite Hdraw. reflexivity. }
  split; [reflexivity |]. split; [reflexivity |].
  split; [exact Hup | exact Hwf'].
Qed.

(** X17.  [_handle_events] can only stop the application: [running] is true
    afterwards exactly when it was true before and no event of the batch is
    [QUIT] or a [KEYDOWN] of the escape key; the ball and the arena are not
    touched. *)
Theorem handle_events_only_stops (events : list App.event) (app : App.t) :
  App.running (App._handle_events events app)
  = andb (App.running app) (negb (quits events))
  /\ (App.running app = false ->
      App.running (App._handle_events events app) = false)
  /\ (In App.QUIT events \/ In (App.KEYDOWN App.K_ESCAPE) events ->
      App.running (App._handle_events events app) = false)
  /\ App.ball (App._handle_events events app) = App.ball app
  /\ App.arena (App._handle_events events app) = App.arena app.
Proof.
  destruct (handle_events_fields events app) as (Hrun & Hball & Har).
  split; [exact Hrun |]. split; [| split; [| split; assumption]].
  - intros Hoff. rewrite Hrun, Hoff. reflexivity.
  - intros Hquit. rewrite Hrun.
    assert (Hq : quits events = true).
    { unfold quits. apply existsb_exists.
      destruct Hquit as [Hin | Hin]; eexists; (split; [exact Hin |]).
      - reflexivity.
      - apply Z.eqb_refl. }
    rewrite Hq. apply Bool.andb_false_r.
Qed.

Lemma handle_events_only_stops_witness :
  (In App.QUIT [App.OTHER; App.QUIT]
   \/ In (App.KEYDOWN App.K_ESCAPE) [App.OTHER; App.QUIT])
  /\ App.running (App._handle_events [App.OTHER; App.QUIT] (App.init 0))
     = false.
Proof.
  assert (H : In App.QUIT [App.OTHER; App.QUIT]
              \/ In (App.KEYDOWN App.K_ESCAPE) [App.OTHER; App.QUIT])
    by (left; right; left; reflexivity).
  split; [exact H |].
  exact (proj1 (proj2 (proj2
           (handle_events_only_stops [App.OTHER; App.QUIT] (App.init 0)))) H).
Defined.

Lemma run_cut_at_quit (pre post : list (Z * list App.event)) (ms : Z)
    (events : list App.event) (app : App.t) :
  quits events = true ->
  App.run (pre ++ (ms, events) :: post) app
  = App.run (pre ++ [(ms, events)]) app.
Proof.
  intros Hquit. revert app.
  induction pre as [| [ms0 events0] pre IH]; intros app; simpl.
  - destruct (App.running app) eqn:Hrun; [| reflexivity].
    destruct (App._update (IZR ms / 1000) (App._handle_events events app))
      as [app2 |] eqn:Hup; cbn [bind]; [| reflexivity].
    destruct (App._draw app2) as [cmds |]; cbn [bind]; [| reflexivity].
    apply app_update_fields in Hup as (Hrun2 & _).
    destruct (handle_events_fields events app) as (Hrun1 & _).
    rewrite Hrun1, Hquit, Bool.andb_false_r in Hrun2.
    rewrite (run_stopped post app2 Hrun2). reflexivity.
  - destruct (App.running app); [| reflexivity].
    destruct (App._update (IZR ms0 / 1000) (App._handle_events events0 app))
      as [app2 |]; cbn [bind]; [| reflexivity].
    destruct (App._draw app2) as [cmds |]; cbn [bind]; [| reflexivity].
    rewrite IH. reflexivity.
Qed.

Lemma run_until_quit (pre : list (Z * list App.event)) (ms : Z)
    (events : list App.event) (app : App.t) :
  App.running app = true ->
  Forall (fun f => quits (snd f) = false) pre ->
  quits events = true ->
  Ball.well_formed (App.ball app) ->
  exists app' drawn,
    App.run (pre ++ [(ms, events)]) app = Ok (app', drawn)
    /\ App.running app' = false
    /\ length drawn = S (length pre).
Proof.
  intros Hrun Hpre Hquit. revert app Hrun.
  induction pre as [| [ms0 events0] pre IH]; intros app Hrun Hwf; simpl.
  - rewrite Hrun.
    destruct (app_frame ms events app Hwf)
      as (app2 & cmds & Hup & Hdraw & Hrun2 & _).
    rewrite Hup. cbn [bind]. rewrite Hdraw. cbn [bind]. exists app2, [cmds].
    rewrite Hrun, Hquit in Hrun2. repeat split. exact Hrun2.
  - rewrite Hrun. inversion Hpre as [| ? ? Hq0 Hrest]; subst. simpl in Hq0.
    destruct (app_frame ms0 events0 app Hwf)
      as (app2 & cmds & Hup & Hdraw & Hrun2 & _ & _ & Hwf2).
    rewrite Hup. cbn [bind]. rewrite Hdraw. cbn [bind].
    rewrite Hrun, Hq0 in Hrun2.
    destruct (IH Hrest app2 Hrun2 Hwf2) as (app' & drawn & Hgo & Hoff & Hlen).
    rewrite Hgo. cbn [bind]. exists app', (cmds :: drawn).
    split; [reflexivity |]. split; [exact Hoff |]. simpl. rewrite Hlen.
    reflexivity.
Qed.

(** X18.  The loop ends with the first iteration whose events ask to stop:
    that iteration is still updated and drawn, and whatever pygame would
    deliver afterwards is never read.  From a well-formed ball, a run of
    [n] iterations without such an event followed by one with it returns,
    with [running] false and [n + 1] frames drawn. *)
Theorem run_stops_after_quit (pre post : list (Z * list App.event)) (ms : Z)
    (events : list App.event) (app : App.t) :
  App.running app = true ->
  Forall (fun f => quits (snd f) = false) pre ->
  quits events = true ->
  App.run (pre ++ (ms, events) :: post) app
  = App.run (pre ++ [(ms, events)]) app
  /\ (Ball.well_formed (App.ball app) ->
      exists app' drawn,
        App.run (pre ++ (ms, events) :: post) app = Ok (app', drawn)
        /\ App.running app' = false
        /\ length drawn = S (length pre)).
Proof.
  intros Hrun Hpre Hquit.
  pose proof (run_cut_at_quit pre post ms events app Hquit) as Hcut.
  split; [exact Hcut |].
  intros Hwf. rewrite Hcut.
  apply run_until_quit; assumption.
Qed.

Lemma run_stops_after_quit_witness :
  App.running (App.init 0) = true
  /\ Forall (fun f => quits (snd f) = false) [(8%Z, [App.OTHER])]
  /\ quits [App.KEYDOWN 27] = true
  /\ Ball.well_formed (App.ball (App.init 0))
  /\ exists app' drawn,
       App.run ([(8%Z, [App.OTHER])] ++ (8%Z, [App.KEYDOWN 27]) :: [(8%Z, [])])
               (App.init 0)
       = Ok (app', drawn)
       /\ App.running app' = false
       /\ length drawn = 2%nat.
Proof.
  assert (H1 : App.running (App.init 0) = true) by reflexivity.
  assert (H2 : Forall (fun f => quits (snd f) = false) [(8%Z, [App.OTHER])])
    by (constructor; [reflexivity | constructor]).
  assert (H3 : quits [App.KEYDOWN 27] = true) by reflexivity.
  assert (H4 : Ball.well_formed (App.ball (App.init 0))).
  { apply init_well_formed. simpl. lra. }
  split; [exact H1 |]. split; [exact H2 |]. split; [exact H3 |].
  split; [exact H4 |].
  exact (proj2 (run_stops_after_quit [(8%Z, [App.OTHER])] [(8%Z, [])] 8
                  [App.KEYDOWN 27] (App.init 0) H1 H2 H3) H4).
Defined.

(** ** Ball: the trails over a run *)

Lemma update_trail_step (dt : R) (b : Ball.t) :
  Ball.well_formed b ->
  exists b' col,
    Ball.update dt b = Ok b'
    /\ Ball.well_formed b'
    /\ TrailManager.motion_trail (Ball.trails b')
       = deque_append TRAIL_LEN (TrailManager.motion_trail (Ball.trails b))
                      (Ball.x b', Ball.y b')
    /\ TrailManager.impacts (Ball.trails b')
       = filter live
           (map (decay dt)
                (TrailManager.impacts (Ball.trails b)
                 ++ (if Rgt_dec (Ball.dist (Ball.moved dt b))
                                (Ball.max_dist (Ball.moved dt b))
                     then [((Ball.x b', Ball.y b'), IMPACT_LIFETIME, col)]
                     else []))).
Proof.
  intros Hwf.
  destruct (update_trails dt b Hwf) as (b' & col & Hup & _ & Htr).
  destruct (update_frame dt b Hwf) as (b2 & Hup2 & Hwf2 & _).
  rewrite Hup in Hup2. injection Hup2 as <-.
  exists b', col. split; [exact Hup |]. split; [exact Hwf2 |].
  rewrite Htr, impacts_update.
  destruct (Rgt_dec _ _); split; try reflexivity.
  cbn [TrailManager.impacts TrailManager.push_position]. rewrite app_nil_r.
  reflexivity.
Qed.

(** X20.  Over a run of frames the motion trail of a well-formed ball gains
    one sample per frame until it holds [TRAIL_LEN] samples, and holds
    [TRAIL_LEN] samples from then on. *)
Theorem run_trail_length (dts : list R) (b : Ball.t) :
  Ball.well_formed b ->
  (length (TrailManager.motion_trail (Ball.trails b)) <= TRAIL_LEN)%nat ->
  exists b',
    run dts b = Ok b'
    /\ length (TrailManager.motion_trail (Ball.trails b'))
       = Nat.min (length (TrailManager.motion_trail (Ball.trails b))
                  + length dts) TRAIL_LEN
    /\ ((TRAIL_LEN <= length dts)%nat ->
        length (TrailManager.motion_trail (Ball.trails b')) = TRAIL_LEN).
Proof.
  intros Hwf Hcap.
  assert (Hmain : exists b',
            run dts b = Ok b'
            /\ length (TrailManager.motion_trail (Ball.trails b'))
               = Nat.min (length (TrailManager.motion_trail (Ball.trails b))
                          + length dts) TRAIL_LEN).
  { revert b Hwf Hcap. induction dts as [| dt rest IH]; intros b Hwf Hcap.
    - exists b. split; [reflexivity |]. simpl. lia.
    - destruct (update_trail_step dt b Hwf) as (b1 & col & Hup & Hwf1 & Hmt & _).
      assert (Hlen1 : length (TrailManager.motion_trail (Ball.trails b1))
                      = Nat.min (S (length (TrailManager.motion_trail
                                              (Ball.trails b)))) TRAIL_LEN).
      { rewrite Hmt. apply length_deque_append, Hcap. }
      destruct (IH b1 Hwf1) as (b' & Hrun & Hlen); [lia |].
      exists b'. simpl run. rewrite Hup. cbn [bind].
      split; [exact Hrun |]. rewrite Hlen, Hlen1. simpl length. lia. }
  destruct Hmain as (b' & Hrun & Hlen).
  exists b'. split; [exact Hrun |]. split; [exact Hlen |].
  intros Hlong. rewrite Hlen. lia.
Qed.

Lemma run_trail_length_witness :
  Ball.well_formed center_ball
  /\ (length (TrailManager.motion_trail (Ball.trails center_ball))
      <= TRAIL_LEN)%nat
  /\ exists b',
       run [1 / 100; 1 / 100] center_ball = Ok b'
       /\ length (TrailManager.motion_trail (Ball.trails b'))
          = Nat.min
              (length (TrailManager.motion_trail (Ball.trails center_ball))
               + length [1 / 100; 1 / 100]) TRAIL_LEN.
Proof.
  assert (H : (length (TrailManager.motion_trail (Ball.trails center_ball))
               <= TRAIL_LEN)%nat) by (simpl; lia).
  split; [exact center_ball_well_formed |]. split; [exact H |].
  destruct (run_trail_length [1 / 100; 1 / 100] center_ball
              center_ball_well_formed H) as (b' & Hrun & Hlen & _).
  exists b'. split; [exact Hrun | exact Hlen].
Defined.

Lemma decayed_lives (dt : R) (l : list TrailManager.impact) :
  0 <= dt ->
  Forall (fun i => 0 < life i <= IMPACT_LIFETIME) l ->
  Forall (fun i => 0 < life i <= IMPACT_LIFETIME)
         (filter live (map (decay dt) l)).
Proof.
  intros Hdt Hall. apply Forall_forall. intros i Hi.
  apply filter_In in Hi as [Hi Hlive]. apply live_spec in Hlive.
  apply in_map_iff in Hi as (j & <- & Hj).
  rewrite Forall_forall in Hall. specialize (Hall j Hj).
  destruct j as [[pos t0] col]. unfold life in *. simpl in *. lra.
Qed.

(** X21.  Over a run of frames with [dt >= 0], every impact that the ball
    keeps has a life in [(0, IMPACT_LIFETIME]], provided those it started
    with had; and the ball never holds more impacts than it started with
    plus one per bounce. *)
Theorem run_impacts_bounded (dts : list R) (b : Ball.t) :
  Ball.well_formed b ->
  Forall (fun dt => 0 <= dt) dts ->
  Forall (fun i => 0 < life i <= IMPACT_LIFETIME)
         (TrailManager.impacts (Ball.trails b)) ->
  exists b',
    run dts b = Ok b'
    /\ Forall (fun i => 0 < life i <= IMPACT_LIFETIME)
              (TrailManager.impacts (Ball.trails b'))
    /\ (length (TrailManager.impacts (Ball.trails b'))
        <= length (TrailManager.impacts (Ball.trails b)) + collisions dts b)%nat.
Proof.
  revert b. induction dts as [| dt rest IH]; intros b Hwf Hdts Hall.
  - exists b. split; [reflexivity |]. split; [exact Hall | simpl; lia].
  - inversion Hdts as [| ? ? Hdt Hrest]; subst.
    destruct (update_trail_step dt b Hwf) as (b1 & col & Hup & Hwf1 & _ & Himp).
    assert (Hall1 : Forall (fun i => 0 < life i <= IMPACT_LIFETIME)
                           (TrailManager.impacts (Ball.trails b1))).
    { rewrite Himp. apply decayed_lives; [exact Hdt |].
      apply Forall_app. split; [exact Hall |].
      destruct (Rgt_dec _ _); [| constructor].
      constructor; [| constructor].
      unfold life, IMPACT_LIFETIME. simpl. lra. }
    assert (Hlen1 : (length (TrailManager.impacts (Ball.trails b1))
                     <= length (TrailManager.impacts (Ball.trails b))
                        + (if Rgt_dec (Ball.dist (Ball.moved dt b))
                                      (Ball.max_dist (Ball.moved dt b))
                           then 1 else 0))%nat).
    { rewrite Himp.
      eapply Nat.le_trans; [apply filter_length_le |].
      rewrite length_map, length_app.
      destruct (Rgt_dec _ _); simpl; lia. }
    destruct (IH b1 Hwf1 Hrest Hall1) as (b' & Hrun & Hall' & Hlen').
    exists b'. simpl run. simpl collisions. rewrite Hup. cbn [bind].
    split; [exact Hrun |]. split; [exact Hall' |]. lia.
Qed.

Lemma run_impacts_bounded_witness :
  Ball.well_formed outside_ball
  /\ Forall (fun dt => 0 <= dt) [0; 1 / 100]
  /\ Forall (fun i => 0 < life i <= IMPACT_LIFETIME)
            (TrailManager.impacts (Ball.trails outside_ball))
  /\ exists b',
       run [0; 1 / 100] outside_ball = Ok b'
       /\ Forall (fun i => 0 < life i <= IMPACT_LIFETIME)
                 (TrailManager.impacts (Ball.trails b')).
Proof.
  assert (H1 : Forall (fun dt => 0 <= dt) [0; 1 / 100]).
  { constructor; [lra |]. constructor; [lra | constructor]. }
  assert (H2 : Forall (fun i => 0 < life i <= IMPACT_LIFETIME)
                      (TrailManager.impacts (Ball.trails outside_ball)))
    by constructor.
  split; [exact outside_ball_well_formed |]. split; [exact H1 |].
  split; [exact H2 |].
  destruct (run_impacts_bounded [0; 1 / 100] outside_ball
              outside_ball_well_formed H1 H2) as (b' & Hrun & Hall & _).
  exists b'. split; [exact Hrun | exact Hall].
Defined.

(** X22.  Air friction counts frames, not time: over a run of frames none
    of which bounces, [vx] is multiplied by [LINEAR_FRICTION] once per
    frame, whatever the [dt] of the frames, so after [n] frames it is
    [vx * LINEAR_FRICTION ^ n]. *)
Theorem friction_per_frame (dts : list R) (b : Ball.t) :
  Ball.well_formed b ->
  collisions dts b = 0%nat ->
  exists b',
    run dts b = Ok b'
    /\ Ball.vx b' = Ball.vx b * LINEAR_FRICTION ^ length dts.
Proof.
  revert b. induction dts as [| dt rest IH]; intros b Hwf Hnone.
  - exists b. split; [reflexivity |]. simpl. ring.
  - destruct (update_frame dt b Hwf) as (b1 & Hup & Hwf1 & _ & _ & Hno & _).
    simpl collisions in Hnone. rewrite Hup in Hnone.
    destruct (Rgt_dec (Ball.dist (Ball.moved dt b))
                      (Ball.max_dist (Ball.moved dt b))) as [Hc | Hnc];
      [simpl in Hnone; lia |].
    simpl in Hnone.
    destruct (IH b1 Hwf1 Hnone) as (b' & Hrun & Hvx).
    exists b'. simpl run. rewrite Hup. cbn [bind].
    split; [exact Hrun |].
    rewrite Hvx, (Hno Hnc).
    destruct (moved_fields dt b) as (Hmvx & _).
    destruct (record_trail_fields dt (Ball.moved dt b)) as (_ & _ & -> & _).
    rewrite Hmvx. simpl. ring.
Qed.


(** * The claims that rounding decides *)

(** ** Impacts: the decay in binary64 *)

Lemma u64_bounds : 0 < u64 < 1.
Proof. unfold u64. lra. Qed.

Lemma rounds_positive (x y : R) :
  rounds x y -> y > 0 -> x > 0 /\ y <= x * (1 + u64).
Proof.
  unfold rounds. intros Hr Hy. pose proof u64_bounds as Hu.
  pose proof (Rle_abs (y - x)) as Hle.
  destruct (Rle_dec x 0) as [Hneg | Hpos].
  - rewrite (Rabs_left1 x Hneg) in Hr. nra.
  - rewrite (Rabs_pos_eq x) in Hr by lra. split; nra.
Qed.

Lemma rounds_between (x y : R) :
  0 <= x -> x * (1 - u64) <= y <= x * (1 + u64) -> rounds x y.
Proof.
  intros Hx Hy. unfold rounds. rewrite (Rabs_pos_eq x Hx).
  apply Rabs_le. lra.
Qed.

Lemma rounds_between_neg (x y : R) :
  x <= 0 -> x * (1 + u64) <= y <= x * (1 - u64) -> rounds x y.
Proof.
  intros Hx Hy. unfold rounds. rewrite (Rabs_left1 x Hx).
  apply Rabs_le. lra.
Qed.

Lemma rounded_updates_nil (dts : list R) (l' : list TrailManager.impact) :
  rounded_updates dts [] l' -> l' = [].
Proof.
  revert l'. induction dts as [| dt rest IH]; intros l' H.
  - inversion H; subst. reflexivity.
  - inversion H as [| ? ? ? l1 ? Hstep Hrest]; subst.
    inversion Hstep; subst. apply IH, Hrest.
Qed.

Lemma pow_1u_ge_1 (n : nat) : 1 <= (1 + u64) ^ n.
Proof. apply pow_R1_Rle. pose proof u64_bounds. lra. Qed.

(** The life that an impact can have left after rounded updates. *)
Lemma rounded_updates_life (dts : list R) (pos : TrailManager.sample)
    (t : R) (col : rgb) (l' : list TrailManager.impact) :
  Forall (fun dt => 0 <= dt) dts ->
  rounded_updates dts [(pos, t, col)] l' ->
  l' = []
  \/ exists t',
       l' = [(pos, t', col)]
       /\ t' <= t * (1 + u64) ^ length dts - elapsed dts
       /\ (dts <> [] -> 0 < t').
Proof.
  revert t l'. induction dts as [| dt rest IH]; intros t l' Hdts Hrun.
  - inversion Hrun; subst. right. exists t. split; [reflexivity |].
    split; [simpl; lra | intros H; contradiction].
  - inversion Hdts as [| ? ? Hdt Hrest]; subst.
    inversion Hrun as [| ? ? ? l1 ? Hstep Hnext]; subst.
    inversion Hstep as [| ? ? ? t1 ? rest' Hr Hpos Htail
                          | ? ? ? t1 ? rest' Hr Hneg Htail]; subst.
    + inversion Htail; subst.
      destruct (rounds_positive _ _ Hr Hpos) as [Hx Hle].
      destruct (IH t1 l' Hrest Hnext) as [-> | (t' & -> & Hb & Hp)];
        [left; reflexivity |].
      right. exists t'. split; [reflexivity |]. split.
      * simpl length. simpl elapsed. simpl pow.
        pose proof (pow_1u_ge_1 (length rest)) as Hpow.
        pose proof u64_bounds as Hu.
        assert (H1 : t1 * (1 + u64) ^ length rest
                     <= (t - dt) * (1 + u64) * (1 + u64) ^ length rest).
        { apply Rmult_le_compat_r; lra. }
        assert (H2 : dt <= dt * ((1 + u64) * (1 + u64) ^ length rest)).
        { assert (1 <= (1 + u64) * (1 + u64) ^ length rest) by nra. nra. }
        nra.
      * intros _. destruct rest as [| dt2 rest2].
        -- inversion Hnext; subst. exact Hpos.
        -- apply Hp. discriminate.
    + inversion Htail; subst. left. apply rounded_updates_nil in Hnext.
      exact Hnext.
Qed.

Lemma float_trace :
  rounded_updates
    [float_0_1; float_0_1; float_0_1; float_0_1; float_0_1; float_0_1;
     float_0_1]
    [((0, 0), float_0_6, (255, 0, 0)%Z)] [].
Proof.
  pose proof u64_bounds as Hu.
  eapply rounded_next.
  { apply rounded_keep with (t' := 1 / 2); [| lra | apply rounded_done].
    apply rounds_between; unfold float_0_6, float_0_1, u64; lra. }
  eapply rounded_next.
  { apply rounded_keep with (t' := 3602879701896397 / 9007199254740992);
      [| lra | apply rounded_done].
    apply rounds_between; unfold float_0_1, u64; lra. }
  eapply rounded_next.
  { apply rounded_keep with (t' := 1351079888211149 / 4503599627370496);
      [| lra | apply rounded_done].
    apply rounds_between; unfold float_0_1, u64; lra. }
  eapply rounded_next.
  { apply rounded_keep with (t' := 7205759403792795 / 36028797018963968);
      [| lra | apply rounded_done].
    apply rounds_between; unfold float_0_1, u64; lra. }
  eapply rounded_next.
  { apply rounded_keep with (t' := 1801439850948199 / 18014398509481984);
      [| lra | apply rounded_done].
    apply rounds_between; unfold float_0_1, u64; lra. }
  eapply rounded_next.
  { apply rounded_keep with (t' := 1 / 36028797018963968);
      [| lra | apply rounded_done].
    apply rounds_between; unfold float_0_1, u64; lra. }
  eapply rounded_next.
  { apply rounded_drop with (t' := - 900719925474099 / 9007199254740992);
      [| lra | apply rounded_done].
    apply rounds_between_neg; unfold float_0_1, u64; lra. }
  apply rounded_none.
Qed.

Lemma rounds_exact (x : R) : rounds x x.
Proof.
  unfold rounds. replace (x - x) with 0 by ring. rewrite Rabs_R0.
  pose proof u64_bounds. pose proof (Rabs_pos x). nra.
Qed.

(** The update over [R] is one of the rounded updates: the one that never
    has to round. *)
Lemma exact_is_rounded (dt : R) (l : list TrailManager.impact) :
  rounded_update dt l (filter live (map (decay dt) l)).
Proof.
  induction l as [| [[pos t] col] rest IH]; simpl.
  - apply rounded_done.
  - destruct (Rgt_dec (t - dt) 0) as [Hp | Hn].
    + apply rounded_keep; [apply rounds_exact | exact Hp | exact IH].
    + apply rounded_drop with (t' := t - dt);
        [apply rounds_exact | exact Hn | exact IH].
Qed.

Lemma rounded_update_app (dt : R) (l1 l2 l' : list TrailManager.impact) :
  rounded_update dt (l1 ++ l2) l' ->
  exists l1' l2',
    l' = l1' ++ l2' /\ rounded_update dt l1 l1' /\ rounded_update dt l2 l2'.
Proof.
  revert l'. induction l1 as [| i rest IH]; intros l' H; simpl in H.
  - exists [], l'. split; [reflexivity |]. split; [apply rounded_done | exact H].
  - inversion H as [| pos t col t1 ? rest' Hr Hp Htail
                     | pos t col t1 ? rest' Hr Hn Htail]; subst.
    + destruct (IH _ Htail) as (l1' & l2' & -> & H1 & H2).
      exists ((pos, t1, col) :: l1'), l2'. split; [reflexivity |].
      split; [apply rounded_keep; assumption | exact H2].
    + destruct (IH _ Htail) as (l1' & l2' & -> & H1 & H2).
      exists l1', l2'. split; [reflexivity |].
      split; [apply rounded_drop with (t' := t1); assumption | exact H2].
Qed.

Lemma rounded_updates_app (dts : list R) (l1 l2 l' : list TrailManager.impact) :
  rounded_updates dts (l1 ++ l2) l' ->
  exists l1' l2',
    l' = l1' ++ l2' /\ rounded_updates dts l1 l1' /\ rounded_updates dts l2 l2'.
Proof.
  revert l1 l2 l'. induction dts as [| dt rest IH]; intros l1 l2 l' H.
  - inversion H; subst. exists l1, l2.
    split; [reflexivity |]. split; apply rounded_none.
  - inversion H as [| ? ? ? lmid ? Hstep Hnext]; subst.
    destruct (rounded_update_app _ _ _ _ Hstep) as (m1 & m2 & -> & H1 & H2).
    destruct (IH _ _ _ Hnext) as (l1' & l2' & -> & H1' & H2').
    exists l1', l2'. split; [reflexivity |].
    split; eapply rounded_next; eassumption.
Qed.

Lemma fresh_impact_expires (dts : list R) (pos : TrailManager.sample)
    (t0 : R) (col : rgb) (l' : list TrailManager.impact) :
  Forall (fun dt => 0 <= dt) dts ->
  rounds IMPACT_LIFETIME t0 ->
  IMPACT_LIFETIME * (1 + u64) ^ S (length dts) <= elapsed dts ->
  rounded_updates dts [(pos, t0, col)] l' ->
  l' = [].
Proof.
  intros Hdts Hr Hlong Hrun. pose proof u64_bounds as Hu.
  assert (HL : 0 < IMPACT_LIFETIME) by (unfold IMPACT_LIFETIME; lra).
  assert (Ht0 : t0 <= IMPACT_LIFETIME * (1 + u64)).
  { unfold rounds in Hr. rewrite (Rabs_pos_eq IMPACT_LIFETIME) in Hr by lra.
    pose proof (Rle_abs (t0 - IMPACT_LIFETIME)). lra. }
  pose proof (pow_1u_ge_1 (length dts)) as Hpow.
  destruct (rounded_updates_life dts pos t0 col l' Hdts Hrun)
    as [-> | (t' & -> & Hb & Hp)]; [reflexivity |].
  exfalso. simpl pow in Hlong.
  assert (Hne : dts <> []).
  { intros ->. simpl in Hlong. nra. }
  specialize (Hp Hne).
  assert (t0 * (1 + u64) ^ length dts
          <= IMPACT_LIFETIME * (1 + u64) * (1 + u64) ^ length dts).
  { apply Rmult_le_compat_r; lra. }
  nra.
Qed.

(** C7, as the code has it.  [update dt] decrements the life of every impact
    by [dt] and keeps, in their order, exactly those whose new life is
    strictly positive.  An impact just added survives an update by half its
    lifetime, and is gone after a single update by its lifetime or more.
    Over several updates the lives are subtracted in binary64, one rounding
    per update: after [n] updates with [dt >= 0], the impact has left no
    trace once the time elapsed reaches
    [IMPACT_LIFETIME * (1 + 2^-53)^(n + 1)], whatever the roundings were. *)
Theorem impacts_decay (tm : TrailManager.t) (dt : R) (pos : TrailManager.sample)
    (col : rgb) (dts : list R) (t0 : R) (l' : list TrailManager.impact) :
  TrailManager.impacts (TrailManager.update dt tm)
  = filter live (map (decay dt) (TrailManager.impacts tm))
  /\ (forall i, live i = true <-> snd (fst i) > 0)
  /\ TrailManager.impacts
       (TrailManager.update (IMPACT_LIFETIME / 2)
          (TrailManager.add_impact pos col tm))
     = TrailManager.impacts (TrailManager.update (IMPACT_LIFETIME / 2) tm)
       ++ [(pos, IMPACT_LIFETIME - IMPACT_LIFETIME / 2, col)]
  /\ (IMPACT_LIFETIME <= dt ->
      TrailManager.impacts
        (TrailManager.update dt (TrailManager.add_impact pos col tm))
      = TrailManager.impacts (TrailManager.update dt tm))
  /\ (Forall (fun dt => 0 <= dt) dts ->
      rounds IMPACT_LIFETIME t0 ->
      IMPACT_LIFETIME * (1 + u64) ^ S (length dts) <= elapsed dts ->
      rounded_updates dts (TrailManager.impacts tm ++ [(pos, t0, col)]) l' ->
      rounded_updates dts (TrailManager.impacts tm) l').
Proof.
  split; [apply impacts_update |]. split; [apply live_spec |].
  split; [| split].
  - rewrite !impacts_update. simpl TrailManager.impacts.
    rewrite map_app, filter_app. f_equal. simpl.
    destruct (Rgt_dec (IMPACT_LIFETIME - IMPACT_LIFETIME / 2) 0) as [_ | Hn].
    + reflexivity.
    + exfalso. apply Hn. unfold IMPACT_LIFETIME. lra.
  - intros Hlong. rewrite !impacts_update. simpl TrailManager.impacts.
    rewrite map_app, filter_app. simpl.
    destruct (Rgt_dec (IMPACT_LIFETIME - dt) 0) as [Hp | _]; [lra |].
    apply app_nil_r.
  - intros Hdts Hr Hlong Hrun.
    destruct (rounded_updates_app _ _ _ _ Hrun) as (l1' & l2' & -> & H1 & H2).
    rewrite (fresh_impact_expires dts pos t0 col l2' Hdts Hr Hlong H2).
    rewrite app_nil_r. exact H1.
Qed.

Lemma impacts_decay_witness :
  Forall (fun dt => 0 <= dt)
         [float_0_1; float_0_1; float_0_1; float_0_1; float_0_1; float_0_1;
          float_0_1]
  /\ rounds IMPACT_LIFETIME float_0_6
  /\ IMPACT_LIFETIME * (1 + u64) ^ 8
     <= elapsed [float_0_1; float_0_1; float_0_1; float_0_1; float_0_1;
                 float_0_1; float_0_1]
  /\ rounded_updates
       [float_0_1; float_0_1; float_0_1; float_0_1; float_0_1; float_0_1;
        float_0_1]
       (TrailManager.impacts TrailManager.init
        ++ [((0, 0), float_0_6, (255, 0, 0)%Z)]) []
  /\ rounded_updates
       [float_0_1; float_0_1; float_0_1; float_0_1; float_0_1; float_0_1;
        float_0_1]
       (TrailManager.impacts TrailManager.init) [].
Proof.
  assert (Hd : 0 <= float_0_1) by (unfold float_0_1; lra).
  assert (H1 : Forall (fun dt => 0 <= dt)
                 [float_0_1; float_0_1; float_0_1; float_0_1; float_0_1;
                  float_0_1; float_0_1]).
  { repeat (apply Forall_cons; [exact Hd |]). apply Forall_nil. }
  assert (H2 : rounds IMPACT_LIFETIME float_0_6).
  { apply rounds_between; unfold IMPACT_LIFETIME, float_0_6, u64; lra. }
  assert (H3 : IMPACT_LIFETIME * (1 + u64) ^ 8
               <= elapsed [float_0_1; float_0_1; float_0_1; float_0_1;
                           float_0_1; float_0_1; float_0_1]).
  { unfold elapsed, IMPACT_LIFETIME, float_0_1, u64. simpl. lra. }
  split; [exact H1 |]. split; [exact H2 |]. split; [exact H3 |].
  split; [exact float_trace |].
  exact (proj2 (proj2 (proj2 (proj2
           (impacts_decay TrailManager.init 0 (0, 0) (255, 0, 0)%Z
              [float_0_1; float_0_1; float_0_1; float_0_1; float_0_1;
               float_0_1; float_0_1] float_0_6 [])))) H1 H2 H3 float_trace).
Defined.

(** C7, as the claim has it, fails on the code: six updates by the float
    [0.1] add up, exactly, to more than the float [0.6] of
    [IMPACT_LIFETIME], and the impact added before them is still there, with
    a life of [2^-55]. *)
Lemma impacts_decay_counterexample :
  (F64.exact F64.IMPACT_LIFETIME
   < exact_elapsed [0.1; 0.1; 0.1; 0.1; 0.1; 0.1]%float)%Q
  /\ F64.TrailManager.impacts
       (F64.update_all [0.1; 0.1; 0.1; 0.1; 0.1; 0.1]%float
          (F64.TrailManager.add_impact (0, 0)%float (255, 0, 0)%Z
             F64.TrailManager.init))
     = [((0, 0)%float, 0x1p-55%float, (255, 0, 0)%Z)].
Proof. split; vm_compute; reflexivity. Qed.

(** ** Containment: the clamp in binary64 *)



Lemma grazing_ball_well_formed : Ball.well_formed grazing_ball.
Proof. split; simpl; [lra | lia]. Qed.



Lemma grazing_ball_moved :
  Ball.vx (Ball.moved (1 / 2) grazing_ball) = 999 / 10
  /\ Ball.vy (Ball.moved (1 / 2) grazing_ball) = 0
  /\ Ball.dist (Ball.moved (1 / 2) grazing_ball) = 24995 / 100
  /\ Ball.max_dist (Ball.moved (1 / 2) grazing_ball) = 22898 / 100.
Proof.
  destruct (moved_fields (1 / 2) grazing_ball)
    as (Hvx & Hvy & Hx & Hy & _ & Har & _).
  simpl in Hvx, Hvy, Hx, Hy. unfold LINEAR_FRICTION, GRAVITY in *.
  split; [rewrite Hvx; field |]. split; [rewrite Hvy; field |]. split.
  - unfold Ball.dist, Ball.dx, Ball.dy. rewrite Hx, Hy, Har. simpl.
    match goal with
    | |- hypot ?a ?c = _ =>
        replace a with (24995 / 100) by field; replace c with 0 by field
    end.
    apply hypot_0_r. lra.
  - unfold Ball.max_dist. rewrite Har, moved_radius.
    unfold Ball.target_max, BALL_MAX_RATIO, GROWTH_PER_SEC. simpl.
    destruct (Rlt_dec _ _) as [_ | Hn]; [| exfalso; apply Hn; lra].
    rewrite Rmin_right by lra. field.
Qed.

Lemma grazing_ball_collides : Ball.collides (1 / 2) grazing_ball.
Proof.
  unfold Ball.collides.
  destruct grazing_ball_moved as (_ & _ & -> & ->). lra.
Qed.




(** A step that overflows: with [dt = 1e200] the position of a ball at rest
    becomes infinite, the normal is [inf / inf], and the frame returns a
    ball whose [y], [vx] and [vy] are NaN. *)
Example overflowing_frame :
  exists b',
    F64.Ball.update 1e200 F64.center_ball = Ok b'
    /\ PrimFloat.is_nan (F64.Ball.y b') = true
    /\ PrimFloat.is_nan (F64.Ball.vx b') = true
    /\ PrimFloat.is_nan (F64.Ball.vy b') = true
    /\ F64.Ball.contained b' = false.
Proof.
  eexists. split; [vm_compute; reflexivity |].
  repeat split; vm_compute; reflexivity.
Qed.

(** ** Drawing the trails, opacities apart *)

(** X4.  [TrailManager.draw] never raises.  It draws one line per impact,
    in the order of the impacts, from the place of the impact to the ball
    and in the colour of the impact, and then one line from each point of
    the trail to the next, oldest pair first, in the colour of the ball:
    [len(trail) - 1] lines, and none for a trail of fewer than two
    points. *)
Theorem trail_draw_lines (ball_pos : TrailManager.sample) (color : rgb)
    (tm : TrailManager.t) :
  exists cmds,
    TrailManager.draw ball_pos color tm = Ok cmds
    /\ map erase_alpha cmds
       = map (fun i : TrailManager.impact =>
                BlendLine (snd i) 0 (fst (fst i)) ball_pos IMPACT_WIDTH)
             (TrailManager.impacts tm)
         ++ map (fun k =>
                   BlendLine color 0
                     (nth (k - 1) (TrailManager.motion_trail tm) (0, 0))
                     (nth k (TrailManager.motion_trail tm) (0, 0))
                     TRAIL_WIDTH)
                (seq 1 (length (TrailManager.motion_trail tm) - 1))
    /\ length cmds
       = (length (TrailManager.impacts tm)
          + (length (TrailManager.motion_trail tm) - 1))%nat.
Proof.
  eexists. split; [apply draw_value |]. split.
  - rewrite map_app, !map_map. f_equal.
    apply map_ext. intros [[pos t0] col]. reflexivity.
  - rewrite length_app, !length_map, length_seq. reflexivity.
Qed.

(** ** Witnesses on balls that move *)

Lemma update_speed_bound_witness :
  Ball.well_formed grazing_ball
  /\ Ball.collides (1 / 2) grazing_ball
  /\ speed (Ball.moved (1 / 2) grazing_ball) = 999 / 10
  /\ exists b',
       Ball.update (1 / 2) grazing_ball = Ok b'
       /\ speed b' <= speed (Ball.moved (1 / 2) grazing_ball).
Proof.
  split; [exact grazing_ball_well_formed |].
  split; [exact grazing_ball_collides |].
  split.
  { unfold speed. destruct grazing_ball_moved as (-> & -> & _).
    apply hypot_0_r. lra. }
  destruct (update_speed_bound (1 / 2) grazing_ball grazing_ball_well_formed)
    as (b' & Hup & _ & Hle & _).
  exists b'. split; [exact Hup | exact Hle].
Defined.

Lemma hypot_le (a b c : R) : 0 <= c -> a * a + b * b <= c * c -> hypot a b <= c.
Proof.
  intros Hc Hsq. unfold hypot. rewrite <- (sqrt_square c Hc).
  apply sqrt_le_1_alt, Hsq.
Qed.

(** A frame does not bounce when the integrated position is within [c] of
    the centre and [c] is what the cap on the radius leaves free. *)
Lemma clear_frame (dt c : R) (b : Ball.t) :
  0 <= dt ->
  0 <= c ->
  Ball.radius b <= Ball.target_max b ->
  c <= Arena.radius (Ball.arena b) - Ball.target_max b ->
  Ball.dx (Ball.moved dt b) * Ball.dx (Ball.moved dt b)
  + Ball.dy (Ball.moved dt b) * Ball.dy (Ball.moved dt b) <= c * c ->
  ~ Ball.collides dt b.
Proof.
  intros Hdt Hc Hcap Hfree Hsq. unfold Ball.collides.
  pose proof (hypot_le _ _ c Hc Hsq) as Hd.
  fold (Ball.dist (Ball.moved dt b)) in Hd.
  destruct (grow_step dt b Hdt) as (_ & _ & Hle). specialize (Hle Hcap).
  destruct (moved_fields dt b) as (_ & _ & _ & _ & _ & Har & _).
  unfold Ball.max_dist. rewrite Har. lra.
Qed.

Lemma drifting_ball_well_formed : Ball.well_formed drifting_ball.
Proof. split; simpl; [lra | lia]. Qed.

Lemma drifting_ball_clear : ~ Ball.collides (1 / 100) drifting_ball.
Proof.
  apply (clear_frame (1 / 100) 1).
  - lra.
  - lra.
  - unfold Ball.target_max, BALL_MAX_RATIO. simpl. unfold BALL_BASE_RADIUS. lra.
  - unfold Ball.target_max, BALL_MAX_RATIO. simpl. lra.
  - destruct (moved_fields (1 / 100) drifting_ball)
      as (_ & _ & Hx & Hy & _ & Har & _).
    unfold Ball.dx, Ball.dy. rewrite Hx, Hy, Har. simpl.
    unfold LINEAR_FRICTION, GRAVITY. nra.
Qed.

Lemma drifting_ball_clear_again :
  ~ Ball.collides (1 / 100)
      (Ball.record_trail (1 / 100) (Ball.moved (1 / 100) drifting_ball)).
Proof.
  destruct (moved_fields (1 / 100) drifting_ball)
    as (Hvx & Hvy & Hx & Hy & _ & Har & _).
  destruct (grow_step (1 / 100) drifting_ball) as (_ & _ & Hle); [lra |].
  assert (Hcap : Ball.radius drifting_ball <= Ball.target_max drifting_ball).
  { unfold Ball.target_max, BALL_MAX_RATIO. simpl. unfold BALL_BASE_RADIUS. lra. }
  specialize (Hle Hcap).
  apply (clear_frame (1 / 100) 1).
  - lra.
  - lra.
  - unfold Ball.target_max in *. simpl. rewrite Har. exact Hle.
  - unfold Ball.target_max, BALL_MAX_RATIO. simpl. rewrite Har. simpl. lra.
  - destruct (moved_fields (1 / 100)
                (Ball.record_trail (1 / 100) (Ball.moved (1 / 100) drifting_ball)))
      as (_ & _ & Hx2 & Hy2 & _ & Har2 & _).
    unfold Ball.dx, Ball.dy. rewrite Hx2, Hy2, Har2.
    cbn [Ball.record_trail Ball.x Ball.y Ball.vx Ball.vy Ball.arena
         Ball.set_trails].
    rewrite Hx, Hy, Hvx, Hvy, Har. simpl.
    unfold LINEAR_FRICTION, GRAVITY. nra.
Qed.

Lemma drifting_ball_no_collisions :
  collisions [1 / 100; 1 / 100] drifting_ball = 0%nat.
Proof.
  simpl collisions.
  rewrite (update_no_collision _ _ drifting_ball_clear).
  destruct (Rgt_dec _ _) as [Hc | _];
    [exfalso; apply drifting_ball_clear, Hc |].
  rewrite (update_no_collision _ _ drifting_ball_clear_again).
  destruct (Rgt_dec _ _) as [Hc | _];
    [exfalso; apply drifting_ball_clear_again, Hc |].
  reflexivity.
Qed.

Lemma friction_per_frame_witness :
  Ball.well_formed drifting_ball
  /\ collisions [1 / 100; 1 / 100] drifting_ball = 0%nat
  /\ exists b',
       run [1 / 100; 1 / 100] drifting_ball = Ok b'
       /\ Ball.vx b' = 10 * LINEAR_FRICTION ^ 2.
Proof.
  split; [exact drifting_ball_well_formed |].
  split; [exact drifting_ball_no_collisions |].
  exact (friction_per_frame [1 / 100; 1 / 100] drifting_ball
           drifting_ball_well_formed drifting_ball_no_collisions).
Defined.

(** ** App: a whole session *)

Lemma app_run_safe (frames : list (Z * list App.event)) (app : App.t) :
  Ball.well_formed (App.ball app) ->
  exists app' drawn,
    App.run frames app = Ok (app', drawn)
    /\ Ball.well_formed (App.ball app')
    /\ App.arena app' = App.arena app
    /\ Ball.arena (App.ball app') = Ball.arena (App.ball app)
    /\ (length drawn <= length frames)%nat
    /\ (Forall (fun f => (0 <= fst f)%Z) frames ->
        Ball.radius (App.ball app) <= Ball.radius (App.ball app')
        /\ (Ball.radius (App.ball app) <= Ball.target_max (App.ball app) ->
            Ball.radius (App.ball app') <= Ball.target_max (App.ball app))).
Proof.
  revert app. induction frames as [| [ms events] rest IH]; intros app Hwf.
  - exists app, []. split; [reflexivity |]. split; [exact Hwf |].
    repeat split; try assumption; try lra; try (simpl; lia).
  - simpl App.run. destruct (App.running app) eqn:Hrun.
    + destruct (app_frame ms events app Hwf)
        as (app2 & cmds & Hstep & Hdraw & _ & Har2 & Hup & Hwf2).
      rewrite Hstep. cbn [bind]. rewrite Hdraw. cbn [bind].
      destruct (update_radius _ _ _ Hup) as [Hr2 Hbar2].
      destruct (IH app2 Hwf2)
        as (app' & drawn & Hgo & Hwf' & Har' & Hbar' & Hlen & Hrad).
      rewrite Hgo. cbn [bind]. exists app', (cmds :: drawn).
      split; [reflexivity |]. split; [exact Hwf' |].
      split; [congruence |]. split; [congruence |].
      split; [simpl; lia |].
      intros Hms. inversion Hms as [| ? ? Hms0 Hmsrest]; subst. simpl in Hms0.
      destruct (Hrad Hmsrest) as [Hmono Hcap].
      assert (Hdt : 0 <= IZR ms / 1000).
      { apply IZR_le in Hms0. lra. }
      destruct (grow_step (IZR ms / 1000) (App.ball app) Hdt)
        as (Hm1 & _ & Hcap1).
      rewrite <- Hr2 in Hm1, Hcap1.
      split; [lra |].
      intros Hb. unfold Ball.target_max in *. rewrite Hbar2 in Hcap.
      apply Hcap, Hcap1, Hb.
    + exists app, []. split; [reflexivity |]. split; [exact Hwf |].
      repeat split; try assumption; try lra; try (simpl; lia).
Qed.

(** X19.  A session of the application never raises, whatever pygame
    delivers: from [App()], for every angle drawn by [Ball.__init__] and
    every sequence of ticks and events, the loop returns; the arena stays
    the circle of radius 250 around (400, 300), the same for the
    application and for the ball; the colour index of the ball stays an
    index of [COLORS]; at most one frame is drawn per iteration; and when
    no tick is negative the radius of the ball stays between
    [BALL_BASE_RADIUS] and 200. *)
Theorem session_is_safe (ang : R) (frames : list (Z * list App.event)) :
  exists app' drawn,
    App.run frames (App.init ang) = Ok (app', drawn)
    /\ App.arena app' = app_arena
    /\ Ball.arena (App.ball app') = app_arena
    /\ Ball.well_formed (App.ball app')
    /\ (length drawn <= length frames)%nat
    /\ (Forall (fun f => (0 <= fst f)%Z) frames ->
        BALL_BASE_RADIUS <= Ball.radius (App.ball app') <= 200).
Proof.
  assert (Harena : App.arena (App.init ang) = app_arena) by reflexivity.
  assert (Hball : App.ball (App.init ang) = Ball.init app_arena ang)
    by reflexivity.
  assert (Hwf : Ball.well_formed (App.ball (App.init ang))).
  { rewrite Hball. apply init_well_formed. simpl. lra. }
  destruct (app_run_safe frames (App.init ang) Hwf)
    as (app' & drawn & Hrun & Hwf' & Har' & Hbar' & Hlen & Hrad).
  exists app', drawn. split; [exact Hrun |].
  split; [rewrite Har'; exact Harena |].
  split; [rewrite Hbar', Hball; reflexivity |].
  split; [exact Hwf' |]. split; [exact Hlen |].
  intros Hms. destruct (Hrad Hms) as [Hmono Hcap].
  rewrite Hball in Hmono, Hcap.
  unfold Ball.target_max, BALL_MAX_RATIO in Hcap. simpl in Hmono, Hcap.
  unfold BALL_BASE_RADIUS in *. lra.
Qed.

Lemma session_is_safe_witness :
  Forall (fun f => (0 <= fst f)%Z) [(8%Z, [App.OTHER]); (9%Z, [App.QUIT])]
  /\ exists app' drawn,
       App.run [(8%Z, [App.OTHER]); (9%Z, [App.QUIT])] (App.init 0)
       = Ok (app', drawn)
       /\ BALL_BASE_RADIUS <= Ball.radius (App.ball app') <= 200.
Proof.
  assert (H : Forall (fun f => (0 <= fst f)%Z)
                     [(8%Z, [App.OTHER]); (9%Z, [App.QUIT])]).
  { constructor; [simpl; lia |]. constructor; [simpl; lia | constructor]. }
  split; [exact H |].
  destruct (session_is_safe 0 [(8%Z, [App.OTHER]); (9%Z, [App.QUIT])])
    as (app' & drawn & Hrun & _ & _ & _ & _ & Hrad).
  exists app', drawn. split; [exact Hrun | exact (Hrad H)].
Defined.
